(** * meetings-recording: recorder, visualizer, player and transcription action

    A shallow embedding of the TypeScript sources

    - [AudioRecorder], components/functional/recorder.tsx (module [Recorder]),
    - [AudioVisualizer], components/functional/audio-vizualization.tsx,
      which follows the recorder in the same source file (module
      [Visualizer]),
    - [AudioPlayer], components/functional/audio-player.tsx (module [Player]),
    - [transcribeAudio], actions/transcribe.ts (module [Transcribe]),

    followed by the properties of the specification that were checked
    against them.  React state cells and refs become record fields, event
    handlers become functions on those records, and every call into the
    browser or into the transcription provider is a parameter. *)

From Stdlib Require Import List ZArith Bool Lia String Ascii.
From Stdlib.Strings Require Import Byte.
From Stdlib Require Import PrimFloat Uint63 SpecFloat FloatOps FloatAxioms FloatClass.
From Stdlib Require DecimalString DecimalZ.
Import ListNotations.

Set Implicit Arguments.

(* ================================================================== *)
(** * JavaScript numbers *)
(* ================================================================== *)

(** The arithmetic of the visualizer is written over the interface
    below, of which IEEE binary64 ([float], what the browser computes
    with) is the instance. *)

Module JS.

Class Number (F : Type) : Type := {
  of_Z : Z -> F;            (* an integer literal, or a byte read from a typed array *)
  add : F -> F -> F;
  sub : F -> F -> F;
  mul : F -> F -> F;
  div : F -> F -> F;
  sqrt : F -> F;            (* Math.sqrt *)
  gt : F -> F -> bool;      (* a > b *)
  max : F -> F -> F;        (* Math.max(a, b) *)
  min : F -> F -> F;        (* Math.min(a, b) *)
  undefined_num : F         (* what arithmetic makes of [undefined] *)
}.

(** ** binary64 *)

Definition float_of_Z (z : Z) : float :=
  match z with
  | Zneg p => PrimFloat.opp (PrimFloat.of_uint63 (Uint63.of_Z (Zpos p)))
  | _ => PrimFloat.of_uint63 (Uint63.of_Z z)
  end.

(** [Math.max]: NaN when an argument is NaN, and [+0] above [-0]. *)
Definition float_max (a b : float) : float :=
  if PrimFloat.is_nan a || PrimFloat.is_nan b then PrimFloat.nan
  else if PrimFloat.ltb a b then b
  else if PrimFloat.ltb b a then a
  else if PrimFloat.is_zero a then PrimFloat.add a b
  else a.

(** [Math.min]: NaN when an argument is NaN, and [-0] below [+0]. *)
Definition float_min (a b : float) : float :=
  if PrimFloat.is_nan a || PrimFloat.is_nan b then PrimFloat.nan
  else if PrimFloat.ltb a b then a
  else if PrimFloat.ltb b a then b
  else if PrimFloat.is_zero a
       then PrimFloat.opp (PrimFloat.add (PrimFloat.opp a) (PrimFloat.opp b))
  else a.

#[global] Instance float_number : Number float := {|
  of_Z := float_of_Z;
  add := PrimFloat.add;
  sub := PrimFloat.sub;
  mul := PrimFloat.mul;
  div := PrimFloat.div;
  sqrt := PrimFloat.sqrt;
  gt := fun a b => PrimFloat.ltb b a;
  max := float_max;
  min := float_min;
  undefined_num := PrimFloat.nan
|}.

End JS.

(* ================================================================== *)
(** * Binary64 numbers that are finite and not negative *)
(* ================================================================== *)

(** The vocabulary for reasoning about the arithmetic of the running
    maxima: such a number is [+0] or [m * 2^e] with [m] and [e] on the
    grid of binary64, and its value is counted in units of [2^-2200],
    small enough for every exact sum, difference and product of two of
    them. *)

Module Binary64.

Definition nonneg_number (x : float) : bool :=
  match PrimFloat.classify x with
  | PNormal | PSubn | PZero => true
  | _ => false
  end.

Definition Wv (m e : Z) : Z := (m * 2 ^ (e + 2200))%Z.

(** Mantissas below [2^53], exponents from [-1074], and a normal
    mantissa above the smallest exponent. *)
Definition grid (m e : Z) : Prop :=
  (0 <= m < 2 ^ 53 /\ -1074 <= e /\ (-1074 < e -> 2 ^ 52 <= m))%Z.

Definition dig (m : positive) : Z := Zpos (digits2_pos m).

Definition val (z : spec_float) : Z :=
  match z with
  | S754_finite false m e => Wv (Zpos m) e
  | _ => 0%Z
  end.

Definition value (x : float) : Z := val (Prim2SF x).

(** [+0] or a positive finite number. *)
Definition fin (z : spec_float) : Prop :=
  match z with
  | S754_zero false | S754_finite false _ _ => True
  | _ => False
  end.

(** Not NaN and not negative: [+0], a positive finite number or
    [+Infinity]. *)
Definition pos_shape (z : spec_float) : Prop :=
  match z with
  | S754_zero false | S754_finite false _ _ | S754_infinity false => True
  | _ => False
  end.

(** The record of a right shift holds bits that were shifted out. *)
Definition inexact (mrs : shr_record) : bool := shr_r mrs || shr_s mrs.

(** [shifted k x y]: [y] is [x] shifted right by [k] bits. *)
Definition shifted (k : Z) (x y : shr_record) : Prop :=
  (shr_m y = shr_m x / 2 ^ k
   /\ 0 <= shr_m y
   /\ (inexact y = false <-> inexact x = false /\ shr_m x mod 2 ^ k = 0))%Z.

(** The result [z] of a rounding stands for [m1 * 2^e1]. *)
Definition rounds_to (z : spec_float) (m1 e1 : Z) : Prop :=
  match z with
  | S754_zero false => m1 = 0%Z
  | S754_infinity false => (Wv (2 ^ 52) 972 <= Wv m1 e1)%Z
  | S754_finite false m e => Wv (Zpos m) e = Wv m1 e1
  | _ => False
  end.

End Binary64.

(* ================================================================== *)
(** * audio-vizualization.tsx: [AudioVisualizer] *)
(* ================================================================== *)

Module Visualizer.

Section Generic.

Context {F : Type} {num : JS.Number F}.

(** [arr.map((val, idx) => f(val, idx))] *)
Fixpoint map_idx_from {A B : Type} (f : A -> nat -> B) (idx : nat) (arr : list A)
  : list B :=
  match arr with
  | [] => []
  | val :: rest => f val idx :: map_idx_from f (S idx) rest
  end.

Definition map_idx {A B : Type} (f : A -> nat -> B) (arr : list A) : list B :=
  map_idx_from f 0 arr.

(** A read [arr[idx]] of a number array, [undefined] past the end. *)
Definition index_num (arr : list F) (idx : nat) : F :=
  nth idx arr JS.undefined_num.

(** The component: the [amplitudes] state cell and the refs.  The audio
    graph objects only matter through being present or [null]. *)
Record component : Type := {
  amplitudes : list F;
  audioContextRef : bool;
  analyserRef : bool;
  sourceRef : bool;
  animationFrameRef : bool;
  recentMaxValues : list F
}.

(** [useState([0, 0, 0])], [useRef(null)] four times, [useRef([0, 0, 0])]. *)
Definition mount : component := {|
  amplitudes := [JS.of_Z 0; JS.of_Z 0; JS.of_Z 0];
  audioContextRef := false;
  analyserRef := false;
  sourceRef := false;
  animationFrameRef := false;
  recentMaxValues := [JS.of_Z 0; JS.of_Z 0; JS.of_Z 0]
|}.

(** [startVisualization], up to its call of [updateAmplitudes]:
    [granted] tells whether [getUserMedia] resolved. *)
Definition startVisualization (granted : bool) (c : component) : component :=
  if granted then
    {| amplitudes := amplitudes c;
       audioContextRef := true;
       analyserRef := true;
       sourceRef := true;
       animationFrameRef := animationFrameRef c;
       recentMaxValues := recentMaxValues c |}
  else c.

Definition stopVisualization (c : component) : component :=
  {| amplitudes := [JS.of_Z 0; JS.of_Z 0; JS.of_Z 0];
     audioContextRef := false;
     analyserRef := analyserRef c;
     sourceRef := false;
     animationFrameRef := false;
     recentMaxValues := recentMaxValues c |}.

(** [dataArray[i]] for [i] inside the [Uint8Array]. *)
Definition byte_at (dataArray : list byte) (i : nat) : Z :=
  Z.of_N (Byte.to_N (nth i dataArray x00)).

(** [getMaxForRange]: the [for] loop runs [i] from [start] while
    [i < Math.min(end, dataArray.length)]. *)
Definition getMaxForRange (dataArray : list byte) (start end_ : nat) : Z :=
  fold_left
    (fun max i => if (byte_at dataArray i >? max)%Z then byte_at dataArray i else max)
    (seq start (Nat.min end_ (List.length dataArray) - start))
    0%Z.

Definition compressDynamicRange (value : F) : F :=
  JS.mul (JS.sqrt (JS.div value (JS.of_Z 255))) (JS.of_Z 100).

(** The decimal literals 0.05, 1.2, 1.7 and 2.2: a quotient of two
    integers is rounded once, to the double the literal denotes. *)
Definition adaptationRate : F := JS.div (JS.of_Z 5) (JS.of_Z 100).
Definition bassGain : F := JS.div (JS.of_Z 12) (JS.of_Z 10).
Definition midGain : F := JS.div (JS.of_Z 17) (JS.of_Z 10).
Definition trebleGain : F := JS.div (JS.of_Z 22) (JS.of_Z 10).

(** The three gained values of one frame, [[bassVal, midVal, trebleVal]]. *)
Definition bandVals (dataArray : list byte) : list F :=
  let bassRaw := getMaxForRange dataArray 0 10 in
  let midRaw := getMaxForRange dataArray 10 30 in
  let trebleRaw := getMaxForRange dataArray 30 80 in
  let bassVal := JS.mul (compressDynamicRange (JS.of_Z bassRaw)) bassGain in
  let midVal := JS.mul (compressDynamicRange (JS.of_Z midRaw)) midGain in
  let trebleVal := JS.mul (compressDynamicRange (JS.of_Z trebleRaw)) trebleGain in
  [bassVal; midVal; trebleVal].

(** The [map] that replaces [recentMaxValues.current]. *)
Definition smoothMax (vals recent : list F) : list F :=
  map_idx
    (fun val idx =>
       let newVal := index_num vals idx in
       JS.add val (JS.mul (JS.sub (JS.max val newVal) val) adaptationRate))
    recent.

(** [adaptiveGain], reading the array just stored; [undefined > 80] is
    false. *)
Definition adaptiveGain (recent : list F) (value : F) (idx : nat) : F :=
  let adaptiveScale :=
    match nth_error recent idx with
    | Some maxVal =>
        if JS.gt maxVal (JS.of_Z 80) then JS.div (JS.of_Z 80) maxVal else JS.of_Z 1
    | None => JS.of_Z 1
    end in
  JS.mul value adaptiveScale.

(** The body of [update] after [getByteFrequencyData] has filled
    [dataArray]: the new [recentMaxValues.current] and the argument of
    [setAmplitudes]. *)
Definition frame (dataArray : list byte) (recent : list F) : list F * list F :=
  let vals := bandVals dataArray in
  let recent' := smoothMax vals recent in
  let out idx :=
    JS.min (JS.of_Z 90) (JS.max (JS.of_Z 5) (adaptiveGain recent' (index_num vals idx) idx)) in
  ([out 0%nat; out 1%nat; out 2%nat], recent').

(** The closure [update], once per animation frame: the next frame is
    requested, [dataArray] is what [getByteFrequencyData] has just
    written, and both cells are stored. *)
Definition update (dataArray : list byte) (c : component) : component :=
  let '(amps, recent') := frame dataArray (recentMaxValues c) in
  {| amplitudes := amps;
     audioContextRef := audioContextRef c;
     analyserRef := analyserRef c;
     sourceRef := sourceRef c;
     animationFrameRef := true;
     recentMaxValues := recent' |}.

(** [updateAmplitudes]: without an analyser nothing is started;
    otherwise [update] runs for the first time. *)
Definition updateAmplitudes (dataArray : list byte) (c : component) : component :=
  if analyserRef c then update dataArray c else c.

(** A run of animation frames, one snapshot each; the frames emitted are
    collected in order. *)
Fixpoint frames (snapshots : list (list byte)) (recent : list F)
  : list (list F) * list F :=
  match snapshots with
  | [] => ([], recent)
  | dataArray :: rest =>
      let '(amps, recent') := frame dataArray recent in
      let '(emitted, final) := frames rest recent' in
      (amps :: emitted, final)
  end.

(** The render: [maxBarHeight] and the height of one bar, in percent of
    the container. *)
Definition maxBarHeight : F := JS.of_Z 60.

Definition barHeight (amplitude : F) : F :=
  JS.min maxBarHeight
    (JS.max (JS.of_Z 8) (JS.mul (JS.div amplitude (JS.of_Z 100)) maxBarHeight)).

End Generic.

Arguments component F : clear implicits.

(** A snapshot of the 128 bins of the analyser ([fftSize = 256]) with
    every bin at full scale. *)
Definition full_scale : list byte := repeat xff 128.

End Visualizer.

(* ================================================================== *)
(** * The Amplitude Smoother as the specification words it *)
(* ================================================================== *)

(** This module follows the text of the specification (section 4.1b), not
    the source: one band at a time, by name.  It is compared with
    [Visualizer.frame] below. *)

Module SmootherSpec.

Inductive band : Set := Bass | Mid | Treble.

(** Bass [0,10), mid [10,30), treble [30,80). *)
Definition first_bin (b : band) : nat :=
  match b with Bass => 0 | Mid => 10 | Treble => 30 end.

Definition end_bin (b : band) : nat :=
  match b with Bass => 10 | Mid => 30 | Treble => 80 end.

(** The bins of the snapshot that fall in the band's range. *)
Definition bins (snapshot : list byte) (b : band) : list byte :=
  firstn (end_bin b - first_bin b) (skipn (first_bin b) snapshot).

(** The maximum raw magnitude (0-255) of the band. *)
Definition raw_max (snapshot : list byte) (b : band) : Z :=
  fold_right Z.max 0%Z (map (fun x => Z.of_N (Byte.to_N x)) (bins snapshot b)).

(** The place of a band in the three-tuples. *)
Definition position (b : band) : nat :=
  match b with Bass => 0 | Mid => 1 | Treble => 2 end.

Section Generic.

Context {F : Type} {num : JS.Number F}.

Definition decimal (numerator denominator : Z) : F :=
  JS.div (JS.of_Z numerator) (JS.of_Z denominator).

(** [compressed = sqrt(raw/255) * 100] *)
Definition compress (raw : Z) : F :=
  JS.mul (JS.sqrt (JS.div (JS.of_Z raw) (JS.of_Z 255))) (JS.of_Z 100).

(** Bass x1.2, mid x1.7, treble x2.2. *)
Definition gain (b : band) : F :=
  match b with
  | Bass => decimal 12 10
  | Mid => decimal 17 10
  | Treble => decimal 22 10
  end.

Definition compressed_gained (snapshot : list byte) (b : band) : F :=
  JS.mul (compress (raw_max snapshot b)) (gain b).

(** [runningMax += (max(runningMax, compressedGained) - runningMax) * 0.05] *)
Definition smoothed (runningMax value : F) : F :=
  JS.add runningMax
    (JS.mul (JS.sub (JS.max runningMax value) runningMax) (decimal 5 100)).

(** If the running max exceeds 80, scale by [80/runningMax], else by 1. *)
Definition de_gain (runningMax : F) : F :=
  if JS.gt runningMax (JS.of_Z 80) then JS.div (JS.of_Z 80) runningMax
  else JS.of_Z 1.

Definition clamp (lo hi x : F) : F := JS.min hi (JS.max lo x).

(** The band's new running max and its value in the frame. *)
Definition running_max' (snapshot : list byte) (b : band) (runningMax : F) : F :=
  smoothed runningMax (compressed_gained snapshot b).

Definition output (snapshot : list byte) (b : band) (runningMax : F) : F :=
  clamp (JS.of_Z 5) (JS.of_Z 90)
    (JS.mul (compressed_gained snapshot b)
            (de_gain (running_max' snapshot b runningMax))).

End Generic.


End SmootherSpec.

(* ================================================================== *)
(** * recorder.tsx: [AudioRecorder] *)
(* ================================================================== *)

Module Recorder.

Record Blob : Type := {
  blob_data : list byte;
  blob_type : string
}.

Definition size (b : Blob) : nat := List.length (blob_data b).

(** [new Blob(parts, { type })] *)
Definition newBlob (parts : list Blob) (type : string) : Blob :=
  {| blob_data := List.concat (map blob_data parts); blob_type := type |}.

Definition formats : list string :=
  [ "audio/webm"; "audio/ogg"; "audio/mp3"; "audio/mp4"; "audio/wav";
    "audio/ogg;codecs=opus"; "audio/mpeg"; "audio/mpga"; "audio/oga";
    "audio/flac"; "audio/m4a" ]%string.

(** A string in a condition. *)
Definition truthy (s : string) : bool := negb (String.eqb s "").

Inductive RecordingState : Set := inactive | recording.

Record MediaRecorder : Type := {
  mimeType : string;
  state : RecordingState;
  timeslice : option nat
}.

(** The component: the state cells, the refs the recording path uses, and
    the blobs handed to [onRecordingComplete], oldest first. *)
Record component : Type := {
  isRecording : bool;
  recordingTime : Z;
  isStreaming : bool;
  mediaRecorderRef : option MediaRecorder;
  chunksRef : list Blob;
  timerRef : bool;
  streamRef : bool;
  completed : list Blob
}.

Definition mount : component := {|
  isRecording := false;
  recordingTime := 0;
  isStreaming := false;
  mediaRecorderRef := None;
  chunksRef := [];
  timerRef := false;
  streamRef := false;
  completed := []
|}.

Section Runtime.

(** The browser: [MediaRecorder.isTypeSupported], and the [mimeType] of a
    recorder built without options.  A recorder built with
    [{ mimeType }] reports that type. *)
Variable isTypeSupported : string -> bool.
Variable defaultMimeType : string.

(** The [for ... of] loop over the candidates, left at the first
    supported one; [mimeType] is the value of the variable so far. *)
Fixpoint pickFormat (candidates : list string) (mimeType : string) : string :=
  match candidates with
  | [] => mimeType
  | format :: rest =>
      if isTypeSupported format then format else pickFormat rest mimeType
  end.

Definition newMediaRecorder (options : option string) : MediaRecorder :=
  {| mimeType := match options with Some t => t | None => defaultMimeType end;
     state := inactive;
     timeslice := None |}.

(** [mediaRecorder.start(1000)] *)
Definition start (ms : nat) (r : MediaRecorder) : MediaRecorder :=
  {| mimeType := mimeType r; state := recording; timeslice := Some ms |}.

(** [mediaRecorder.stop()] *)
Definition stop (r : MediaRecorder) : MediaRecorder :=
  {| mimeType := mimeType r; state := inactive; timeslice := timeslice r |}.

(** [startRecording]; when [getUserMedia] rejects ([granted = false]) the
    [catch] only logs.  The streaming set-up at the end builds audio
    nodes whose output is never sent anywhere, and is left out. *)
Definition startRecording (granted : bool) (c : component) : component :=
  if granted then
    let mimeType := pickFormat formats "" in
    let mediaRecorder :=
      if truthy mimeType then newMediaRecorder (Some mimeType)
      else newMediaRecorder None in
    {| isRecording := true;
       recordingTime := 0;
       isStreaming := true;
       mediaRecorderRef := Some (start 1000 mediaRecorder);
       chunksRef := [];
       timerRef := true;
       streamRef := true;
       completed := completed c |}
  else c.

(** [mediaRecorder.ondataavailable] *)
Definition ondataavailable (data : Blob) (c : component) : component :=
  if (0 <? size data)%nat then
    {| isRecording := isRecording c;
       recordingTime := recordingTime c;
       isStreaming := isStreaming c;
       mediaRecorderRef := mediaRecorderRef c;
       chunksRef := chunksRef c ++ [data];
       timerRef := timerRef c;
       streamRef := streamRef c;
       completed := completed c |}
  else c.

(** The interval callback [setRecordingTime((prev) => prev + 1)], which
    only runs while the interval is set. *)
Definition tick (c : component) : component :=
  if timerRef c then
    {| isRecording := isRecording c;
       recordingTime := recordingTime c + 1;
       isStreaming := isStreaming c;
       mediaRecorderRef := mediaRecorderRef c;
       chunksRef := chunksRef c;
       timerRef := timerRef c;
       streamRef := streamRef c;
       completed := completed c |}
  else c.

Definition stopRecording (c : component) : component :=
  match mediaRecorderRef c with
  | Some mediaRecorder =>
      if isRecording c then
        {| isRecording := false;
           recordingTime := recordingTime c;
           isStreaming := false;
           mediaRecorderRef := Some (stop mediaRecorder);
           chunksRef := chunksRef c;
           timerRef := false;
           streamRef := streamRef c;
           completed := completed c |}
      else c
  | None => c
  end.

(** [mediaRecorder.onstop]; the recorder is inactive when the browser
    fires it. *)
Definition onstop (c : component) : component :=
  match mediaRecorderRef c with
  | Some mediaRecorder =>
      let audioBlob := newBlob (chunksRef c) (mimeType mediaRecorder) in
      {| isRecording := isRecording c;
         recordingTime := recordingTime c;
         isStreaming := isStreaming c;
         mediaRecorderRef := Some (stop mediaRecorder);
         chunksRef := chunksRef c;
         timerRef := timerRef c;
         streamRef := streamRef c;
         completed := completed c ++ [audioBlob] |}
  | None => c
  end.

(** What can happen to the component, in the order it happens. *)
Inductive event : Type :=
| StartClicked (granted : bool)
| DataAvailable (data : Blob)
| TimerFired
| StopClicked
| RecorderStopped.

Definition handle (c : component) (e : event) : component :=
  match e with
  | StartClicked granted => startRecording granted c
  | DataAvailable data => ondataavailable data c
  | TimerFired => tick c
  | StopClicked => stopRecording c
  | RecorderStopped => onstop c
  end.

Definition run (events : list event) (c : component) : component :=
  fold_left handle events c.

(** [startCapture()], then whatever the recorder and the timer deliver
    ([during]), then [stopCapture()], the flush of the last fragment and
    the recorder's [stop] event. *)
Definition session (during : list event) (last : Blob) : list event :=
  StartClicked true :: during ++ [StopClicked; DataAvailable last; RecorderStopped].

Definition is_tick (e : event) : bool :=
  match e with TimerFired => true | _ => false end.

Definition is_delivery (e : event) : bool :=
  match e with TimerFired | DataAvailable _ => true | _ => false end.

(** The mime type the specification expects: the first candidate of the
    list that the runtime supports, the runtime default when there is
    none. *)
Definition negotiated : string :=
  match find isTypeSupported formats with
  | Some format => format
  | None => defaultMimeType
  end.

(** The fragments of a list of events that the handler keeps. *)
Fixpoint kept (events : list event) : list Blob :=
  match events with
  | [] => []
  | DataAvailable data :: rest =>
      if (0 <? size data)%nat then data :: kept rest else kept rest
  | _ :: rest => kept rest
  end.

End Runtime.

(** Every fragment of a list of events, kept or not. *)
Fixpoint fragments (events : list event) : list Blob :=
  match events with
  | [] => []
  | DataAvailable data :: rest => data :: fragments rest
  | _ :: rest => fragments rest
  end.

(** [n.toString()] for an integer [n]. *)
Definition toString (n : Z) : string :=
  DecimalString.NilEmpty.string_of_int (Z.to_int n).

(** [count] characters taken from [pad] over and over; [rest] is what is
    left of the current copy. *)
Fixpoint cycle (count : nat) (pad rest : string) : string :=
  match count with
  | O => EmptyString
  | S count' =>
      match rest with
      | String c rest' => String c (cycle count' pad rest')
      | EmptyString =>
          match pad with
          | String c rest' => String c (cycle count' pad rest')
          | EmptyString => EmptyString
          end
      end
  end.

(** [str.padStart(targetLength, padString)] *)
Definition padStart (targetLength : nat) (padString str : string) : string :=
  if (targetLength <=? String.length str)%nat then str
  else String.append (cycle (targetLength - String.length str) padString padString) str.

(** [formatTime] of the recorder; [seconds] is the counter, an integer:
    [Math.floor(seconds / 60)] is the quotient rounded down and [%] the
    remainder with the sign of [seconds]. *)
Definition formatTime (seconds : Z) : string :=
  let mins := (seconds / 60)%Z in
  let secs := Z.rem seconds 60 in
  String.append (padStart 2 "0" (toString mins))
    (String.append ":" (padStart 2 "0" (toString secs))).

(** A fragment with data, and one without. *)
Definition one_second : Blob :=
  {| blob_data := [x1a; x45; xdf; xa3]; blob_type := "audio/webm" |}.

Definition nothing : Blob :=
  {| blob_data := []; blob_type := "audio/webm" |}.

End Recorder.

(* ================================================================== *)
(** * transcribe.ts: the server action [transcribeAudio] *)
(* ================================================================== *)

Module Transcribe.

Local Open Scope string_scope.

Definition TEST_MP3_URL : string :=
  "https://download.samplelib.com/mp3/sample-3s.mp3".

(** The text appended to a transcript of the test audio. *)
Definition NOTE : string :=
  " (NOTE: This is from a test audio, not your recording)".

(** The message of the [TypeError] raised by reading [name] of [null]. *)
Definition null_name_message : string :=
  "Cannot read properties of null (reading 'name')".

Record File : Type := {
  name : string;
  type : string;
  bytes : list byte
}.

(** The two entries the action reads; [formData.get] gives [null] for a
    missing one. *)
Record FormData : Type := {
  audio : option File;
  useTestAudio : option string
}.

(** [str.includes(part)] *)
Fixpoint includes (str part : string) : bool :=
  if String.prefix part str then true
  else match str with
       | EmptyString => false
       | String _ rest => includes rest part
       end.

(** [str.split(sep)] for a one-character separator. *)
Fixpoint split (sep : ascii) (str : string) : list string :=
  match str with
  | EmptyString => [EmptyString]
  | String c rest =>
      if Ascii.eqb c sep then EmptyString :: split sep rest
      else match split sep rest with
           | part :: parts => String c part :: parts
           | [] => [String c EmptyString]
           end
  end.

(** What is passed as [audio] to the provider. *)
Inductive AudioSource : Type :=
| FromURL (url : string)
| FromBuffer (data : list byte) (bufferName : string).

Record Request : Type := {
  req_audio : AudioSource;
  req_language : string;
  req_fileName : string
}.

(** How a call ends: with a value, or with a thrown error, which is
    identified with the text [error?.message || error] prints. *)
Inductive completion (A : Type) : Type :=
| Normal (a : A)
| Throw (message : string).

Arguments Normal {A} a.
Arguments Throw {A} message.

Section Gateway.

Variable Segment : Type.

Record Transcription : Type := {
  text : string;
  durationInSeconds : float;
  segments : list Segment;
  language : string
}.

(** What the action resolves to. *)
Inductive Response : Type :=
| Success (result : Transcription)
| Failure (error : string).

(** The provider ([transcribe] of the ai package over the Azure client)
    and [String.prototype.toLowerCase]. *)
Variable transcribe : Request -> completion Transcription.
Variable toLowerCase : string -> string.

(** A computation that may throw and that logs its provider calls. *)
Definition action (A : Type) : Type := list Request -> completion A * list Request.

Definition ret {A : Type} (a : A) : action A := fun calls => (Normal a, calls).

Definition throw {A : Type} (message : string) : action A :=
  fun calls => (Throw message, calls).

Definition bind {A B : Type} (m : action A) (k : A -> action B) : action B :=
  fun calls =>
    match m calls with
    | (Normal a, calls') => k a calls'
    | (Throw message, calls') => (Throw message, calls')
    end.

Definition try_catch {A : Type} (body : action A) (handler : string -> action A)
  : action A :=
  fun calls =>
    match body calls with
    | (Normal a, calls') => (Normal a, calls')
    | (Throw message, calls') => handler message calls'
    end.

Notation "x <- m ;; k" := (bind m (fun x => k))
  (at level 61, m at next level, right associativity).

(** [await transcribe({ ... })] *)
Definition call (request : Request) : action Transcription :=
  fun calls => (transcribe request, (calls ++ [request])%list).

(** [audioFile.name] *)
Definition name_of (audioFile : option File) : action string :=
  match audioFile with
  | Some file => ret (name file)
  | None => throw null_name_message
  end.

(** The extension given to the buffer. *)
Definition fileExtension (file : File) : string :=
  if Recorder.truthy (name file) && includes (name file) "." then
    toLowerCase (last (split "."%char (name file)) EmptyString)
  else if Recorder.truthy (type file) then
    if includes (type file) "webm" then "webm"
    else if includes (type file) "mp3" then "mp3"
    else if includes (type file) "wav" then "wav"
    else "mp3"
  else "mp3".

Definition plain (result : Transcription) : Response :=
  Success {| text := text result;
             durationInSeconds := durationInSeconds result;
             segments := segments result;
             language := language result |}.

Definition annotated (result : Transcription) : Response :=
  Success {| text := text result ++ NOTE;
             durationInSeconds := durationInSeconds result;
             segments := segments result;
             language := language result |}.

Definition test_request (fileName : string) : Request :=
  {| req_audio := FromURL TEST_MP3_URL; req_language := "en"; req_fileName := fileName |}.

Definition file_request (file : File) : Request :=
  {| req_audio := FromBuffer (bytes file) ("audio." ++ fileExtension file);
     req_language := "en";
     req_fileName := name file |}.

Definition transcribeAudio (formData : FormData) : action Response :=
  try_catch
    (let audioFile := audio formData in
     let useTestAudio :=
       match useTestAudio formData with
       | Some flag => String.eqb flag "true"
       | None => false
       end in
     match audioFile, useTestAudio with
     | None, false => ret (Failure "No audio file provided")
     | _, true =>
         fileName <- name_of audioFile ;;
         result <- call (test_request fileName) ;;
         ret (annotated result)
     | Some file, false =>
         try_catch
           (result <- call (file_request file) ;;
            ret (plain result))
           (fun fileError =>
              fileName <- name_of audioFile ;;
              result <- call (test_request fileName) ;;
              ret (annotated result))
     end)
    (fun error => ret (Failure ("Failed to transcribe audio: " ++ error))).

End Gateway.

Arguments Failure {Segment} error.

(** [text] ends with [suffix]. *)
Definition ends_with (text suffix : string) : Prop :=
  exists front, text = front ++ suffix.

(** A recording as the page submits it. *)
Definition recording : File :=
  {| name := "recording.webm"; type := "audio/webm"; bytes := [x1a; x45; xdf; xa3] |}.

Definition sample_transcript : Transcription unit :=
  {| text := "Hello."; durationInSeconds := 3%float; segments := []; language := "en" |}.

(** A provider that cannot decode buffers and transcribes what it
    fetches from a URL, and one that fails every call. *)
Definition url_only (request : Request) : completion (Transcription unit) :=
  match req_audio request with
  | FromURL _ => Normal sample_transcript
  | FromBuffer _ _ => Throw "Invalid file format."
  end.

Definition unavailable (request : Request) : completion (Transcription unit) :=
  Throw "Unauthorized".

(** A provider that transcribes whatever it is sent. *)
Definition accepting (request : Request) : completion (Transcription unit) :=
  Normal sample_transcript.

End Transcribe.

(* ================================================================== *)
(** * audio-player.tsx: [AudioPlayer] *)
(* ================================================================== *)

Module Player.

(** Times, durations and volumes are JavaScript numbers: binary64, with
    NaN and the infinities. *)
Definition isFinite (x : float) : bool := PrimFloat.is_finite x.
Definition isNaN (x : float) : bool := PrimFloat.is_nan x.

(** The state cells, [audioRef] (is there an element), and the value of
    [isReady] that the listeners of the current element were created
    with: they are built once per [audioUrl] by the effect and read the
    [isReady] of that render. *)
Record component : Type := {
  isPlaying : bool;
  currentTime : float;
  duration : float;
  isReady : bool;
  loading : bool;
  volume : float;
  isMuted : bool;
  audioRef : bool;
  isReady_in_listeners : bool
}.

Definition mount : component := {|
  isPlaying := false;
  currentTime := 0%float;
  duration := 0%float;
  isReady := false;
  loading := true;
  volume := 0x1.999999999999ap-1%float;   (* 0.8 *)
  isMuted := false;
  audioRef := false;
  isReady_in_listeners := false
|}.

(** The setters of the state cells. *)
Definition setIsPlaying (v : bool) (c : component) : component :=
  {| isPlaying := v; currentTime := currentTime c; duration := duration c;
     isReady := isReady c; loading := loading c; volume := volume c;
     isMuted := isMuted c; audioRef := audioRef c;
     isReady_in_listeners := isReady_in_listeners c |}.

Definition setCurrentTime (v : float) (c : component) : component :=
  {| isPlaying := isPlaying c; currentTime := v; duration := duration c;
     isReady := isReady c; loading := loading c; volume := volume c;
     isMuted := isMuted c; audioRef := audioRef c;
     isReady_in_listeners := isReady_in_listeners c |}.

Definition setDuration (v : float) (c : component) : component :=
  {| isPlaying := isPlaying c; currentTime := currentTime c; duration := v;
     isReady := isReady c; loading := loading c; volume := volume c;
     isMuted := isMuted c; audioRef := audioRef c;
     isReady_in_listeners := isReady_in_listeners c |}.

Definition setIsReady (v : bool) (c : component) : component :=
  {| isPlaying := isPlaying c; currentTime := currentTime c; duration := duration c;
     isReady := v; loading := loading c; volume := volume c;
     isMuted := isMuted c; audioRef := audioRef c;
     isReady_in_listeners := isReady_in_listeners c |}.

Definition setLoading (v : bool) (c : component) : component :=
  {| isPlaying := isPlaying c; currentTime := currentTime c; duration := duration c;
     isReady := isReady c; loading := v; volume := volume c;
     isMuted := isMuted c; audioRef := audioRef c;
     isReady_in_listeners := isReady_in_listeners c |}.

Definition setVolume (v : float) (c : component) : component :=
  {| isPlaying := isPlaying c; currentTime := currentTime c; duration := duration c;
     isReady := isReady c; loading := loading c; volume := v;
     isMuted := isMuted c; audioRef := audioRef c;
     isReady_in_listeners := isReady_in_listeners c |}.

Definition setIsMuted (v : bool) (c : component) : component :=
  {| isPlaying := isPlaying c; currentTime := currentTime c; duration := duration c;
     isReady := isReady c; loading := loading c; volume := volume c;
     isMuted := v; audioRef := audioRef c;
     isReady_in_listeners := isReady_in_listeners c |}.

(** The effect on [audioUrl]: a new element and new listeners, which take
    the [isReady] of this render with them. *)
Definition load (audioUrl : string) (c : component) : component :=
  if Recorder.truthy audioUrl then
    let c1 := setLoading true c in
    let c2 :=
      {| isPlaying := isPlaying c1; currentTime := currentTime c1;
         duration := duration c1; isReady := isReady c1; loading := loading c1;
         volume := volume c1; isMuted := isMuted c1; audioRef := true;
         isReady_in_listeners := isReady c |} in
    setIsReady false (setCurrentTime 0%float (setIsPlaying false c2))
  else c.

(** What the element reports when one of its events fires. *)
Record media : Type := {
  media_duration : float;      (* audio.duration *)
  media_currentTime : float    (* audio.currentTime *)
}.

Definition handleLoadedMetadata (audio : media) (c : component) : component :=
  if isFinite (media_duration audio) && negb (isNaN (media_duration audio)) then
    setLoading false (setIsReady true (setDuration (media_duration audio) c))
  else c.

Definition handleLoadedData (audio : media) (c : component) : component :=
  if negb (isReady_in_listeners c)
     && isFinite (media_duration audio) && negb (isNaN (media_duration audio)) then
    setLoading false (setIsReady true (setDuration (media_duration audio) c))
  else c.

Definition handleCanPlay (audio : media) (c : component) : component :=
  let c1 := setLoading false c in
  if negb (isReady_in_listeners c)
     && isFinite (media_duration audio) && negb (isNaN (media_duration audio)) then
    setIsReady true (setDuration (media_duration audio) c1)
  else c1.

Definition handleTimeUpdate (audio : media) (c : component) : component :=
  let c1 := setCurrentTime (media_currentTime audio) c in
  if negb (isReady_in_listeners c)
     && isFinite (media_duration audio) && negb (isNaN (media_duration audio))
     && PrimFloat.ltb 0%float (media_duration audio) then
    setIsReady true (setDuration (media_duration audio) c1)
  else c1.

Definition handleEnded (c : component) : component :=
  setCurrentTime 0%float (setIsPlaying false c).

Definition handleError (c : component) : component :=
  setIsReady false (setLoading false c).

(** The rejection handler of [audio.play()]. *)
Definition playRejected (c : component) : component := setIsPlaying false c.

Definition togglePlayPause (c : component) : component :=
  if negb (isReady c) || loading c then c
  else setIsPlaying (negb (isPlaying c)) c.

(** [handleProgressClick]; [x] is [(e.clientX - rect.left) / rect.width].
    The element refuses a time that is not finite with a [TypeError],
    which the [catch] logs before [setCurrentTime] is reached. *)
Definition handleProgressClick (x : float) (c : component) : component :=
  if negb (audioRef c) || negb (isReady c) || PrimFloat.leb (duration c) 0%float
  then c
  else
    let percent := JS.float_max 0%float (JS.float_min 1%float x) in
    let newTime := PrimFloat.mul percent (duration c) in
    if isFinite newTime then setCurrentTime newTime c else c.

Definition toggleMute (c : component) : component :=
  if audioRef c then setIsMuted (negb (isMuted c)) c else c.

(** [handleVolumeChange]; [newVolume] is [parseFloat(e.target.value)]. *)
Definition handleVolumeChange (newVolume : float) (c : component) : component :=
  if audioRef c then
    setIsMuted (PrimFloat.eqb newVolume 0%float) (setVolume newVolume c)
  else c.

(** The four readiness signals, by the listener each one runs. *)
Inductive signal : Set :=
| MetadataReady       (* loadedmetadata *)
| DataReady           (* loadeddata *)
| CanStart            (* canplay *)
| PositionAdvanced.   (* timeupdate *)

Definition deliver (c : component) (s : signal * media) : component :=
  match s with
  | (MetadataReady, audio) => handleLoadedMetadata audio c
  | (DataReady, audio) => handleLoadedData audio c
  | (CanStart, audio) => handleCanPlay audio c
  | (PositionAdvanced, audio) => handleTimeUpdate audio c
  end.

Definition deliver_all (signals : list (signal * media)) (c : component)
  : component :=
  fold_left deliver signals c.

(** Everything that can happen to a mounted player.  The element's events
    need an element: the listeners are attached by [load]. *)
Inductive event : Type :=
| UrlChanged (audioUrl : string)
| Signalled (s : signal) (audio : media)
| EndedFired
| ErrorFired
| PlayRefused
| PlayPauseClicked
| ProgressClicked (x : float)
| MuteClicked
| VolumeMoved (newVolume : float).

Definition step (c : component) (e : event) : component :=
  match e with
  | UrlChanged audioUrl => load audioUrl c
  | Signalled s audio => if audioRef c then deliver c (s, audio) else c
  | EndedFired => if audioRef c then handleEnded c else c
  | ErrorFired => if audioRef c then handleError c else c
  | PlayRefused => if audioRef c then playRejected c else c
  | PlayPauseClicked => togglePlayPause c
  | ProgressClicked x => handleProgressClick x c
  | MuteClicked => toggleMute c
  | VolumeMoved newVolume => handleVolumeChange newVolume c
  end.

Definition steps (events : list event) (c : component) : component :=
  fold_left step events c.

(** ** The vocabulary of the specification *)

(** Readiness as the component shows it.  The controls are enabled by
    [isReady && !loading] and the indicator is shown by [loading]: the
    player is loading while the indicator is on, ready when it is off
    and [isReady] holds, and otherwise failed. *)
Inductive Readiness : Set := Loading | Ready | Errored.

Definition readiness (c : component) : Readiness :=
  if loading c then Loading else if isReady c then Ready else Errored.

(** A signal carries a finite, non-NaN duration. *)
Definition carries_duration (s : signal * media) : bool :=
  isFinite (media_duration (snd s)) && negb (isNaN (media_duration (snd s))).

(** The duration a signal has to carry for its listener to take it: on
    position-advanced it must also be positive. *)
Definition qualifies (s : signal * media) : bool :=
  carries_duration s
  && match fst s with
     | PositionAdvanced => PrimFloat.ltb 0%float (media_duration (snd s))
     | _ => true
     end.

(** What an element with duration [d] at position [t] reports. *)
Definition reports (d t : float) : media :=
  {| media_duration := d; media_currentTime := t |}.


End Player.

(* ================================================================== *)
(** * page.tsx: [Home] *)
(* ================================================================== *)

Set Implicit Arguments.

Module Page.

Import Transcribe.

Local Open Scope string_scope.

Record state : Type := {
  audioUrl : option string;
  audioBlob : option Recorder.Blob;
  transcription : option string;
  isProcessing : bool;
  error : option string
}.

Definition initial : state := {|
  audioUrl := None;
  audioBlob := None;
  transcription := None;
  isProcessing := false;
  error := None
|}.

Definition setAudioUrl (v : option string) (s : state) : state :=
  {| audioUrl := v; audioBlob := audioBlob s; transcription := transcription s;
     isProcessing := isProcessing s; error := error s |}.

Definition setAudioBlob (v : option Recorder.Blob) (s : state) : state :=
  {| audioUrl := audioUrl s; audioBlob := v; transcription := transcription s;
     isProcessing := isProcessing s; error := error s |}.

Definition setTranscription (v : option string) (s : state) : state :=
  {| audioUrl := audioUrl s; audioBlob := audioBlob s; transcription := v;
     isProcessing := isProcessing s; error := error s |}.

Definition setIsProcessing (v : bool) (s : state) : state :=
  {| audioUrl := audioUrl s; audioBlob := audioBlob s; transcription := transcription s;
     isProcessing := v; error := error s |}.

Definition setError (v : option string) (s : state) : state :=
  {| audioUrl := audioUrl s; audioBlob := audioBlob s; transcription := transcription s;
     isProcessing := isProcessing s; error := v |}.

(** The extension the page derives from the type of a recording. *)
Definition extensionOf (blobType : string) : string :=
  if includes blobType "webm" then "webm"
  else if includes blobType "mp3" then "mp3"
  else if includes blobType "wav" then "wav"
  else "mp3".

(** [new File([blob], `recording.${fileExtension}`, { type: ... })] *)
Definition fileOf (blob : Recorder.Blob) : File :=
  let fileExtension := extensionOf (Recorder.blob_type blob) in
  {| name := "recording." ++ fileExtension;
     type := if Recorder.truthy (Recorder.blob_type blob) then Recorder.blob_type blob
             else "audio/" ++ fileExtension;
     bytes := Recorder.blob_data blob |}.

(** The [download] attribute of the link. *)
Definition downloadName (s : state) : string :=
  match audioBlob s with
  | Some blob =>
      if includes (Recorder.blob_type blob) "webm" then "recording.webm"
      else "recording.mp3"
  | None => "recording.mp3"
  end.

Section Server.

Variable Segment : Type.
Variable transcribe : Request -> completion (Transcription Segment).
Variable toLowerCase : string -> string.

(** [URL.createObjectURL] *)
Variable createObjectURL : Recorder.Blob -> string.

(** The [try] after the [await], its [catch] and its [finally]:
    [outcome] is how the call of the action ended, [failed] the message
    of the [catch]. *)
Definition settle (outcome : completion (Response Segment)) (failed : string)
           (s : state) : state :=
  setIsProcessing false
    match outcome with
    | Normal (Failure message) => setTranscription None (setError (Some message) s)
    | Normal (Success result) =>
        setError None (setTranscription (Some (text result)) s)
    | Throw _ => setTranscription None (setError (Some failed) s)
    end.

(** The call of the server action is taken to reach the server. *)
Definition handleFileSelected (file : File) (s : state) : state :=
  let s1 := setError None (setIsProcessing true s) in
  let formData := {| audio := Some file; useTestAudio := None |} in
  settle (fst (transcribeAudio transcribe toLowerCase formData []))
         "Failed to process file" s1.

Definition handleUseTestAudio (s : state) : state :=
  let s1 := setError None (setIsProcessing true s) in
  let formData := {| audio := None; useTestAudio := Some "true" |} in
  settle (fst (transcribeAudio transcribe toLowerCase formData []))
         "Failed to transcribe test audio" s1.

Definition handleRecordingComplete (blob : Recorder.Blob) (s : state) : state :=
  let s1 := setAudioBlob (Some blob) s in
  let url := createObjectURL blob in
  let s2 := setAudioUrl (Some url) s1 in
  handleFileSelected (fileOf blob) s2.

End Server.

End Page.

(* ================================================================== *)
(** * Facts: rounding in binary64 *)
(* ================================================================== *)

Unset Implicit Arguments.

(** The sums, differences and products of the smoothing step are rounded
    to nearest by [binary_round_aux].  For an exact value [M * 2^E] the
    result is one of the two neighbours of that value on the grid
    ([round_aux_exact]); no number of the grid lies strictly between two
    neighbours ([grid_gap]), so the rounded value stays on the same side
    of any number of the grid as the exact one, from below
    ([round_lower]) and from above ([round_upper]).  The comparisons of
    binary64 are those of the values ([compare_value]). *)

Module Binary64Facts.

Import Binary64.

Local Open Scope Z_scope.

Lemma fexp_eq (d : Z) : fexp prec emax d = Z.max (d - 53) (-1074).
Proof. reflexivity. Qed.

Lemma dig_spec (p : positive) : 2 ^ (dig p - 1) <= Zpos p < 2 ^ dig p.
Proof.
  unfold dig. induction p as [p IH|p IH|]; cbn [digits2_pos].
  - rewrite Pos2Z.inj_succ, Z.pow_succ_r by lia.
    replace (Z.succ (Zpos (digits2_pos p)) - 1) with (Z.succ (Zpos (digits2_pos p) - 1)) by lia.
    rewrite Z.pow_succ_r by lia. lia.
  - rewrite Pos2Z.inj_succ, Z.pow_succ_r by lia.
    replace (Z.succ (Zpos (digits2_pos p)) - 1) with (Z.succ (Zpos (digits2_pos p) - 1)) by lia.
    rewrite Z.pow_succ_r by lia. lia.
  - cbn. lia.
Qed.

Lemma dig_pos (p : positive) : 0 < dig p.
Proof. unfold dig. lia. Qed.

(** Powers of two. *)
Lemma pow2_pos (n : Z) : 0 <= n -> 0 < 2 ^ n.
Proof. intros. apply Z.pow_pos_nonneg; lia. Qed.

Lemma pow2_add (a b : Z) : 0 <= a -> 0 <= b -> 2 ^ (a + b) = 2 ^ a * 2 ^ b.
Proof. intros. apply Z.pow_add_r; lia. Qed.

Lemma pow2_le (a b : Z) : 0 <= a <= b -> 2 ^ a <= 2 ^ b.
Proof. intros. apply Z.pow_le_mono_r; lia. Qed.

Lemma pow2_lt (a b : Z) : 0 <= a < b -> 2 ^ a < 2 ^ b.
Proof. intros. apply Z.pow_lt_mono_r; lia. Qed.

(** If [m < 2^a] and [2^b <= m] then [b < a]. *)
Lemma pow2_order (m a b : Z) : 0 <= a -> 0 <= b -> m < 2 ^ a -> 2 ^ b <= m -> b < a.
Proof.
  intros Ha Hb H1 H2. destruct (Z.lt_ge_cases b a) as [|Hge]; [assumption|].
  pose proof (pow2_le a b). lia.
Qed.


(** ** Shifting right *)

Lemma shr_1_shifted (x : shr_record) : 0 <= shr_m x -> shifted 1 x (shr_1 x).
Proof.
  destruct x as [m r s]. cbn [shr_m]. intros Hm. unfold shifted, inexact.
  change (2 ^ 1) with 2.
  destruct m as [|p|p]; [| |lia].
  - cbn. split; [reflexivity|]. split; [lia|]. split; intros H; [split|]; tauto.
  - destruct p as [p|p|]; cbn [shr_1 shr_m shr_r shr_s].
    + rewrite Pos2Z.inj_xI.
      replace (2 * Zpos p + 1) with (1 + Zpos p * 2) by lia.
      rewrite Z.div_add, Z.mod_add by lia. cbn.
      split; [reflexivity|]. split; [lia|]. split; [discriminate|].
      intros [_ H]. discriminate H.
    + rewrite Pos2Z.inj_xO.
      replace (2 * Zpos p) with (0 + Zpos p * 2) by lia.
      rewrite Z.div_add, Z.mod_add by lia. cbn.
      split; [reflexivity|]. split; [lia|]. split; intros H; [split|]; tauto.
    + cbn. split; [reflexivity|]. split; [lia|]. split; [discriminate|].
      intros [_ H]. discriminate H.
Qed.

Lemma shifted_trans (a b : Z) (x y z : shr_record) :
  0 < a -> 0 < b -> 0 <= shr_m x ->
  shifted a x y -> shifted b y z -> shifted (a + b) x z.
Proof.
  intros Ha Hb Hx (Hy1 & Hy2 & Hy3) (Hz1 & Hz2 & Hz3). unfold shifted.
  pose proof (pow2_pos a ltac:(lia)) as Pa. pose proof (pow2_pos b ltac:(lia)) as Pb.
  rewrite pow2_add by lia. split; [|split; [assumption|]].
  - rewrite Hz1, Hy1. apply Z.div_div; lia.
  - rewrite Hz3, Hy3, Hy1. rewrite Z.rem_mul_r by lia.
    pose proof (Z.mod_pos_bound (shr_m x) (2 ^ a) Pa).
    pose proof (Z.mod_pos_bound (shr_m x / 2 ^ a) (2 ^ b) Pb).
    split.
    + intros [[H1 H2] H3]. split; [assumption|]. rewrite H2, H3. lia.
    + intros [H1 H2]. split; [split; [assumption|]|]; nia.
Qed.

Lemma iter_shifted (p : positive) (x : shr_record) :
  0 <= shr_m x -> shifted (Zpos p) x (iter_pos shr_1 p x).
Proof.
  revert x. induction p as [p IH|p IH|]; intros x Hx; cbn [iter_pos].
  - pose proof (shr_1_shifted x Hx) as H1.
    assert (H1' : 0 <= shr_m (shr_1 x)) by apply H1.
    pose proof (IH _ H1') as H2.
    assert (H2' : 0 <= shr_m (iter_pos shr_1 p (shr_1 x))) by apply H2.
    pose proof (IH _ H2') as H3.
    rewrite Pos2Z.inj_xI.
    replace (2 * Zpos p + 1) with (1 + (Zpos p + Zpos p)) by lia.
    eapply shifted_trans; [lia|lia|assumption|exact H1|].
    eapply shifted_trans; [lia|lia|assumption|exact H2|exact H3].
  - pose proof (IH _ Hx) as H2.
    assert (H2' : 0 <= shr_m (iter_pos shr_1 p x)) by apply H2.
    pose proof (IH _ H2') as H3.
    rewrite Pos2Z.inj_xO.
    replace (2 * Zpos p) with (Zpos p + Zpos p) by lia.
    eapply shifted_trans; [lia|lia|assumption|exact H2|exact H3].
  - now apply shr_1_shifted.
Qed.

(** Rounding to nearest adds at most one, and nothing to an exact
    record. *)
Lemma round_nearest_even_cases (mrs : shr_record) :
  let m1 := round_nearest_even (shr_m mrs) (loc_of_shr_record mrs) in
  m1 = shr_m mrs \/ (m1 = shr_m mrs + 1 /\ inexact mrs = true).
Proof.
  destruct mrs as [m [|] [|]]; cbn; unfold inexact; cbn; auto.
  destruct (Z.even m); auto.
Qed.


(** ** Rounding an exact value *)

Lemma Wv_pos_factor (e : Z) : -2200 <= e -> 0 < 2 ^ (e + 2200).
Proof. intros. apply pow2_pos. lia. Qed.

Lemma Wv_le (m m' e : Z) : -2200 <= e -> m <= m' -> Wv m e <= Wv m' e.
Proof. intros He H. unfold Wv. pose proof (Wv_pos_factor e He). nia. Qed.

Lemma Wv_lt (m m' e : Z) : -2200 <= e -> m < m' -> Wv m e < Wv m' e.
Proof. intros He H. unfold Wv. pose proof (Wv_pos_factor e He). nia. Qed.

Lemma Wv_lt_inv (m m' e : Z) : -2200 <= e -> Wv m e < Wv m' e -> m < m'.
Proof. intros He H. unfold Wv in H. pose proof (Wv_pos_factor e He). nia. Qed.

Lemma Wv_le_inv (m m' e : Z) : -2200 <= e -> Wv m e <= Wv m' e -> m <= m'.
Proof. intros He H. unfold Wv in H. pose proof (Wv_pos_factor e He). nia. Qed.

(** Moving [k] bits from the mantissa to the exponent. *)
Lemma Wv_shift (m e k : Z) :
  -2200 <= e -> 0 <= k -> Wv (m * 2 ^ k) e = Wv m (e + k).
Proof.
  intros He Hk. unfold Wv.
  replace (e + k + 2200) with (k + (e + 2200)) by lia.
  rewrite (pow2_add k (e + 2200)) by lia. ring.
Qed.

Lemma Wv_pow (a e : Z) : 0 <= a -> -2200 <= e -> Wv (2 ^ a) e = 2 ^ (a + e + 2200).
Proof.
  intros Ha He. unfold Wv. replace (a + e + 2200) with (a + (e + 2200)) by lia.
  now rewrite (pow2_add a (e + 2200)) by lia.
Qed.

Lemma Zdigits2_small (m : Z) : 0 <= m < 2 ^ 53 -> Zdigits2 m <= 53.
Proof.
  intros [H0 H]. destruct m as [|p|p]; cbn [Zdigits2]; [lia| |lia].
  pose proof (dig_spec p) as [Hd _]. pose proof (dig_pos p). fold (dig p).
  enough (dig p - 1 < 53) by lia.
  apply (pow2_order (Zpos p)); lia.
Qed.

Lemma second_shift (m1 e1 : Z) :
  0 <= m1 <= 2 ^ 53 -> -1074 <= e1 ->
  shr_fexp prec emax m1 e1 loc_Exact =
  if m1 =? 2 ^ 53 then (Build_shr_record (2 ^ 52) false false, e1 + 1)
  else (Build_shr_record m1 false false, e1).
Proof.
  intros Hm He. unfold shr_fexp. rewrite fexp_eq. cbn [shr_record_of_loc].
  destruct (Z.eqb_spec m1 (2 ^ 53)) as [->|Hne].
  - change (Zdigits2 (2 ^ 53)) with 54.
    replace (Z.max (54 + e1 - 53) (-1074) - e1) with 1 by lia.
    reflexivity.
  - pose proof (Zdigits2_small m1 ltac:(lia)).
    destruct (Z.max (Zdigits2 m1 + e1 - 53) (-1074) - e1) eqn:Hn; try reflexivity.
    lia.
Qed.

Lemma round_aux_exact (M : positive) (E : Z) :
  -2200 <= E ->
  E <= fexp prec emax (dig M + E) ->
  exists F e1 m1,
    grid F e1
    /\ Wv F e1 <= Wv (Zpos M) E < Wv (F + 1) e1
    /\ (m1 = F \/ (m1 = F + 1 /\ Wv F e1 < Wv (Zpos M) E))
    /\ rounds_to (binary_round_aux prec emax false (Zpos M) E loc_Exact) m1 e1.
Proof.
  intros HB H. rewrite fexp_eq in H.
  pose proof (dig_spec M) as [Hd1 Hd2]. pose proof (dig_pos M) as Hd0.
  unfold binary_round_aux. unfold shr_fexp at 1. cbn [Zdigits2 shr_record_of_loc].
  fold (dig M). rewrite fexp_eq.
  destruct (Z.max (dig M + E - 53) (-1074) - E) as [|kp|kp] eqn:Hk; [| |lia].
  - (* no shift *)
    cbn [shr shr_m loc_of_shr_record round_nearest_even].
    assert (HM : Zpos M < 2 ^ 53).
    { eapply Z.lt_le_trans; [exact Hd2|]. apply pow2_le. lia. }
    rewrite second_shift by lia.
    destruct (Z.eqb_spec (Zpos M) (2 ^ 53)) as [Heq|_]; [lia|].
    cbn [shr_m].
    exists (Zpos M), E, (Zpos M).
    assert (Hg : grid (Zpos M) E).
    { split; [lia|]. split; [lia|]. intros HE.
      assert (dig M = 53) by lia.
      replace 52 with (dig M - 1) by lia. exact Hd1. }
    split; [exact Hg|]. split; [split; [lia|apply Wv_lt; lia]|].
    split; [now left|].
    destruct (Z.leb_spec E (emax - prec)) as [Hle|Hgt]; cbn [rounds_to]; [reflexivity|].
    change (emax - prec) with 971 in Hgt.
    destruct Hg as (_ & _ & Hn). specialize (Hn ltac:(lia)).
    transitivity (Wv (2 ^ 52) E); [|apply Wv_le; [lia|exact Hn]].
    rewrite !Wv_pow by lia. apply pow2_le. lia.
  - (* a shift by [k = Zpos kp] bits *)
    cbn [shr].
    set (mrs := iter_pos shr_1 kp {| shr_m := Zpos M; shr_r := false; shr_s := false |}).
    destruct (iter_shifted kp {| shr_m := Zpos M; shr_r := false; shr_s := false |}
                ltac:(cbn; lia)) as (HF & HF0 & Hex).
    fold mrs in HF, HF0, Hex. cbn [shr_m] in HF. unfold inexact at 2 in Hex.
    cbn [shr_r shr_s orb shr_m] in Hex.
    set (k := Zpos kp) in *. set (e1 := E + k).
    assert (Hk0 : 0 < k) by (unfold k; lia).
    pose proof (pow2_pos k ltac:(lia)) as Pk.
    set (F := shr_m mrs) in *.
    pose proof (Z.mul_div_le (Zpos M) (2 ^ k) Pk) as Hlow.
    pose proof (Z.mul_succ_div_gt (Zpos M) (2 ^ k) Pk) as Hup.
    rewrite <- HF in Hlow, Hup.
    assert (HF53 : F < 2 ^ 53).
    { rewrite HF. apply Z.div_lt_upper_bound; [lia|].
      eapply Z.lt_le_trans; [exact Hd2|].
      rewrite <- pow2_add by lia. apply pow2_le. lia. }
    assert (Hg : grid F e1).
    { split; [lia|]. split; [unfold e1; lia|]. intros He1.
      assert (Hkd : k = dig M - 53) by (unfold e1 in He1; lia).
      rewrite HF. apply Z.div_le_lower_bound; [lia|].
      rewrite Z.mul_comm, <- pow2_add by lia.
      replace (52 + k) with (dig M - 1) by lia. exact Hd1. }
    assert (HvF : Wv F e1 = Wv (F * 2 ^ k) E).
    { unfold e1. now rewrite Wv_shift by lia. }
    assert (HvF1 : Wv (F + 1) e1 = Wv ((F + 1) * 2 ^ k) E).
    { unfold e1. now rewrite Wv_shift by lia. }
    assert (Hval : Wv F e1 <= Wv (Zpos M) E < Wv (F + 1) e1).
    { rewrite HvF, HvF1. split; [apply Wv_le|apply Wv_lt]; lia. }
    exists F, e1.
    exists (round_nearest_even F (loc_of_shr_record mrs)).
    split; [exact Hg|]. split; [exact Hval|].
    assert (Hm1 : round_nearest_even F (loc_of_shr_record mrs) = F
                  \/ (round_nearest_even F (loc_of_shr_record mrs) = F + 1
                      /\ Wv F e1 < Wv (Zpos M) E)).
    { destruct (round_nearest_even_cases mrs) as [Hc|[Hc Hin]]; fold F in Hc;
        [now left|right]. split; [exact Hc|].
      rewrite HvF. apply Wv_lt; [lia|].
      enough (Zpos M mod 2 ^ k <> 0).
      { pose proof (Z.div_mod (Zpos M) (2 ^ k) ltac:(lia)) as Hdm.
        pose proof (Z.mod_pos_bound (Zpos M) (2 ^ k) Pk). rewrite <- HF in Hdm. lia. }
      intros Hmod. destruct Hex as [_ Hex]. rewrite Hex in Hin; [discriminate|].
      now split. }
    split; [exact Hm1|].
    set (m1 := round_nearest_even F (loc_of_shr_record mrs)) in *.
    assert (Hm1b : 0 <= m1 <= 2 ^ 53) by (destruct Hm1 as [->|[-> _]]; lia).
    rewrite second_shift by (unfold e1; lia).
    destruct (Z.eqb_spec m1 (2 ^ 53)) as [Heq|Hne]; cbn [shr_m].
    + change (2 ^ 52) with (Zpos (Z.to_pos (2 ^ 52))).
      cbv iota.
      assert (Hv : Wv (2 ^ 52) (e1 + 1) = Wv m1 e1).
      { rewrite Heq. rewrite <- Wv_shift by (unfold e1; lia). reflexivity. }
      change (emax - prec) with 971.
      destruct (Z.leb_spec (e1 + 1) 971) as [Hle|Hgt]; cbn [rounds_to].
      * exact Hv.
      * rewrite <- Hv. rewrite !Wv_pow by (unfold e1; lia). apply pow2_le.
        unfold e1 in *. lia.
    + destruct m1 as [|p|p] eqn:Hp; [reflexivity| |lia].
      change (emax - prec) with 971.
      destruct (Z.leb_spec e1 971) as [Hle|Hgt]; cbn [rounds_to]; [reflexivity|].
      destruct Hg as (_ & _ & Hn). specialize (Hn ltac:(lia)).
      transitivity (Wv (2 ^ 52) e1).
      * rewrite !Wv_pow by (unfold e1; lia). apply pow2_le. unfold e1 in *. lia.
      * apply Wv_le; [unfold e1; lia|]. destruct Hm1 as [Hc|[Hc _]]; lia.
Qed.


(** ** The grid of binary64 *)

Lemma dig_unique (p : positive) (a : Z) :
  2 ^ (a - 1) <= Zpos p < 2 ^ a -> 0 < a -> dig p = a.
Proof.
  intros [H1 H2] Ha. pose proof (dig_spec p) as [Hd1 Hd2]. pose proof (dig_pos p).
  pose proof (pow2_order (Zpos p) (dig p) (a - 1) ltac:(lia) ltac:(lia) Hd2 H1).
  pose proof (pow2_order (Zpos p) a (dig p - 1) ltac:(lia) ltac:(lia) H2 Hd1).
  lia.
Qed.

Lemma bounded_grid (m : positive) (e : Z) :
  bounded prec emax m e = true -> grid (Zpos m) e /\ e <= 971.
Proof.
  unfold bounded, canonical_mantissa. rewrite andb_true_iff, Z.eqb_eq, Z.leb_le.
  rewrite fexp_eq. fold (dig m). change (emax - prec) with 971. intros [Hc He].
  pose proof (dig_spec m) as [Hd1 Hd2]. pose proof (dig_pos m).
  split; [|exact He]. split; [|split].
  - split; [lia|]. eapply Z.lt_le_trans; [exact Hd2|]. apply pow2_le. lia.
  - lia.
  - intros Hn. replace 52 with (dig m - 1) by lia. exact Hd1.
Qed.

(** No number of the grid lies strictly between two neighbours. *)
Lemma grid_gap (F e1 mg eg : Z) :
  grid F e1 -> grid mg eg -> Wv F e1 < Wv mg eg -> Wv (F + 1) e1 <= Wv mg eg.
Proof.
  intros (HF & He1 & HFn) (Hg & Heg & Hgn) Hlt.
  destruct (Z.lt_trichotomy eg e1) as [Hc|[Hc|Hc]].
  - exfalso. specialize (HFn ltac:(lia)).
    assert (Wv mg eg < Wv (2 ^ 53) eg) by (apply Wv_lt; lia).
    assert (Wv (2 ^ 52) e1 <= Wv F e1) by (apply Wv_le; lia).
    rewrite Wv_pow in * by lia.
    pose proof (pow2_le (53 + eg + 2200) (52 + e1 + 2200) ltac:(lia)). lia.
  - subst eg. apply Wv_le; [lia|]. apply Wv_lt_inv in Hlt; lia.
  - specialize (Hgn ltac:(lia)).
    assert (Wv (F + 1) e1 <= Wv (2 ^ 53) e1) by (apply Wv_le; lia).
    assert (Wv (2 ^ 52) eg <= Wv mg eg) by (apply Wv_le; lia).
    rewrite Wv_pow in * by lia.
    pose proof (pow2_le (53 + e1 + 2200) (52 + eg + 2200) ltac:(lia)). lia.
Qed.

Lemma Wv_pos (m e : Z) : -2200 <= e -> 0 < m -> 0 < Wv m e.
Proof. intros He Hm. unfold Wv. pose proof (Wv_pos_factor e He). nia. Qed.

(** Rounding an exact value [M * 2^E], from below and from above. *)
Lemma round_lower (M : positive) (E mg eg : Z) :
  -2200 <= E ->
  E <= fexp prec emax (dig M + E) ->
  grid mg eg ->
  Wv mg eg <= Wv (Zpos M) E ->
  let z := binary_round_aux prec emax false (Zpos M) E loc_Exact in
  z = S754_infinity false \/ (fin z /\ Wv mg eg <= val z).
Proof.
  intros HB H Hg Hle z.
  destruct (round_aux_exact M E HB H) as (F & e1 & m1 & HgF & [Hv1 Hv2] & Hm1 & Hz).
  fold z in Hz.
  assert (Hlow : Wv mg eg <= Wv m1 e1).
  { assert (Wv mg eg <= Wv F e1).
    { destruct (Z.le_gt_cases (Wv mg eg) (Wv F e1)) as [|Hgt]; [assumption|].
      pose proof (grid_gap F e1 mg eg HgF Hg Hgt). lia. }
    destruct HgF as (_ & He1 & _).
    destruct Hm1 as [->|[-> _]]; [assumption|].
    etransitivity; [eassumption|]. apply Wv_le; lia. }
  destruct z as [[|]|[|]| |[|] m e]; cbn [rounds_to] in Hz; try contradiction.
  - right. split; [exact I|]. cbn [val]. subst m1. unfold Wv in *. lia.
  - now left.
  - right. split; [exact I|]. cbn [val]. lia.
Qed.

Lemma round_upper (M : positive) (E mg eg : Z) :
  -2200 <= E ->
  E <= fexp prec emax (dig M + E) ->
  grid mg eg ->
  Wv mg eg < Wv (2 ^ 52) 972 ->
  Wv (Zpos M) E <= Wv mg eg ->
  let z := binary_round_aux prec emax false (Zpos M) E loc_Exact in
  fin z /\ val z <= Wv mg eg.
Proof.
  intros HB H Hg Hfin Hle z.
  destruct (round_aux_exact M E HB H) as (F & e1 & m1 & HgF & [Hv1 Hv2] & Hm1 & Hz).
  fold z in Hz.
  assert (Hup : Wv m1 e1 <= Wv mg eg).
  { destruct Hm1 as [->|[-> Hlt]]; [lia|].
    apply grid_gap; [assumption|assumption|lia]. }
  assert (H0 : 0 <= Wv mg eg).
  { destruct Hg as ([? _] & ? & _). unfold Wv.
    pose proof (Wv_pos_factor eg ltac:(lia)). nia. }
  destruct z as [[|]|[|]| |[|] m e]; cbn [rounds_to] in Hz; try contradiction.
  - split; [exact I|]. exact H0.
  - lia.
  - split; [exact I|]. cbn [val]. lia.
Qed.

(** The largest number of the grid below an exact value at least
    [2^-1074], and the rounded value, which is at most one step up. *)
Lemma round_trunc (M : positive) (E : Z) :
  -1074 <= E ->
  E <= fexp prec emax (dig M + E) ->
  let z := binary_round_aux prec emax false (Zpos M) E loc_Exact in
  exists F e1,
    grid F e1 /\ 1 <= F /\ Wv F e1 <= Wv (Zpos M) E
    /\ (z = S754_infinity false \/ (fin z /\ val z <= Wv (F + 1) e1)).
Proof.
  intros HB H z.
  destruct (round_aux_exact M E ltac:(lia) H) as (F & e1 & m1 & HgF & [Hv1 Hv2] & Hm1 & Hz).
  fold z in Hz. exists F, e1.
  assert (HF1 : 1 <= F).
  { destruct HgF as ([HF0 _] & He1 & HFn).
    destruct (Z.eq_dec e1 (-1074)) as [->|Hne]; [|specialize (HFn ltac:(lia)); lia].
    assert (Wv 1 (-1074) <= Wv (Zpos M) E).
    { replace E with (-1074 + (E + 1074)) by lia.
      rewrite <- Wv_shift by lia. apply Wv_le; [lia|].
      pose proof (pow2_pos (E + 1074) ltac:(lia)). nia. }
    assert (Wv 1 (-1074) < Wv (F + 1) (-1074)) by lia.
    apply Wv_lt_inv in H1; lia. }
  split; [exact HgF|]. split; [exact HF1|]. split; [exact Hv1|].
  assert (Hup : Wv m1 e1 <= Wv (F + 1) e1).
  { destruct HgF as (_ & He1 & _). destruct Hm1 as [->|[-> _]]; [|lia].
    apply Wv_le; lia. }
  destruct z as [[|]|[|]| |[|] m e]; cbn [rounds_to] in Hz; try contradiction.
  - right. split; [exact I|]. cbn [val]. subst m1. unfold Wv in *. lia.
  - now left.
  - right. split; [exact I|]. cbn [val]. lia.
Qed.

(** [binary_round] aligns the mantissa first. *)
Lemma binary_round_align (M : positive) (E : Z) :
  -2200 <= E ->
  exists M' E',
    binary_round prec emax false M E
    = binary_round_aux prec emax false (Zpos M') E' loc_Exact
    /\ Wv (Zpos M') E' = Wv (Zpos M) E
    /\ E' <= fexp prec emax (dig M' + E')
    /\ -2200 <= E'
    /\ (-1074 <= E -> -1074 <= E').
Proof.
  intros HB. unfold binary_round, shl_align. fold (dig M). rewrite fexp_eq.
  destruct (Z.max (dig M + E - 53) (-1074) - E) as [|d|d] eqn:Hd.
  - exists M, E. rewrite fexp_eq. repeat split; lia.
  - exists M, E. rewrite fexp_eq. repeat split; lia.
  - set (E' := Z.max (dig M + E - 53) (-1074)) in *.
    exists (Pos.iter xO M d), E'.
    assert (HM : Zpos (Pos.iter xO M d) = Zpos M * 2 ^ Zpos d).
    { change (Pos.iter xO M d) with (shift_pos d M).
      rewrite shift_pos_correct. change (Z.pow_pos 2 d) with (2 ^ Zpos d). ring. }
    assert (HE : E = E' + Zpos d) by lia.
    assert (HD : dig (Pos.iter xO M d) = dig M + Zpos d).
    { pose proof (dig_spec M) as [Hd1 Hd2]. pose proof (dig_pos M).
      pose proof (pow2_pos (Zpos d) ltac:(lia)).
      apply dig_unique; [|lia]. rewrite HM. split.
      - replace (dig M + Zpos d - 1) with (dig M - 1 + Zpos d) by lia.
        rewrite pow2_add by lia. nia.
      - rewrite pow2_add by lia. nia. }
    split; [reflexivity|]. split; [|split; [|split]].
    + rewrite HM, HE. apply Wv_shift; lia.
    + rewrite fexp_eq, HD. unfold E'. lia.
    + lia.
    + lia.
Qed.


(** ** Numbers that are finite and not negative *)

Lemma Prim2SF_inj (x y : float) : Prim2SF x = Prim2SF y -> x = y.
Proof.
  intros H. rewrite <- (SF2Prim_Prim2SF x), <- (SF2Prim_Prim2SF y). now rewrite H.
Qed.

Lemma nonneg_number_fin (x : float) : nonneg_number x = true <-> fin (Prim2SF x).
Proof.
  unfold nonneg_number. rewrite classify_spec. unfold SF64classify, SFclassify.
  destruct (Prim2SF x) as [[|]|[|]| |[|] m e]; cbn [fin];
    try (split; [discriminate|contradiction]); try (split; auto; fail);
    destruct (Z.eqb _ _); split; auto; discriminate.
Qed.

(** A finite number that is not negative is on the grid. *)
Lemma fin_grid (x : float) :
  fin (Prim2SF x) ->
  exists gm ge, grid gm ge /\ Wv gm ge = value x /\ Wv gm ge < Wv (2 ^ 52) 972.
Proof.
  unfold value. pose proof (Prim2SF_valid x) as Hv.
  destruct (Prim2SF x) as [[|]|[|]| |[|] m e]; cbn [fin]; try contradiction; intros _.
  - exists 0, (-1074). split; [|split].
    + split; [lia|]. split; lia.
    + reflexivity.
    + reflexivity.
  - cbn [valid_binary] in Hv. apply bounded_grid in Hv. destruct Hv as [Hg He].
    exists (Zpos m), e. split; [exact Hg|]. split; [reflexivity|].
    destruct Hg as ([_ Hm] & Hlo & _).
    eapply Z.lt_le_trans; [apply (Wv_lt _ (2 ^ 53)); lia|].
    rewrite !Wv_pow by lia. apply pow2_le. lia.
Qed.

Lemma value_nonneg (x : float) : 0 <= value x.
Proof.
  unfold value. pose proof (Prim2SF_valid x) as Hv.
  destruct (Prim2SF x) as [[|]|[|]| |[|] m e]; cbn [val]; try lia.
  cbn [valid_binary] in Hv. apply bounded_grid in Hv. destruct Hv as [(_ & Hlo & _) _].
  pose proof (Wv_pos (Zpos m) e ltac:(lia) ltac:(lia)). lia.
Qed.

Lemma finite_compare (m1 m2 : positive) (e1 e2 : Z) :
  grid (Zpos m1) e1 -> grid (Zpos m2) e2 ->
  SFcompare (S754_finite false m1 e1) (S754_finite false m2 e2)
  = Some (Wv (Zpos m1) e1 ?= Wv (Zpos m2) e2).
Proof.
  intros (Hm1 & He1 & Hn1) (Hm2 & He2 & Hn2). cbn [SFcompare]. f_equal.
  change (PosDef.Pos.compare_cont Eq m1 m2) with (Zpos m1 ?= Zpos m2).
  destruct (Z.compare_spec e1 e2) as [Heq|Hlt|Hgt].
  - subst e2. destruct (Z.compare_spec (Zpos m1) (Zpos m2)) as [Hm|Hm|Hm]; symmetry.
    + rewrite Hm. apply Z.compare_refl.
    + apply Z.compare_lt_iff. apply Wv_lt; lia.
    + apply Z.compare_gt_iff. apply Wv_lt; lia.
  - symmetry. apply Z.compare_lt_iff. specialize (Hn2 ltac:(lia)).
    assert (Wv (Zpos m1) e1 < Wv (2 ^ 53) e1) by (apply Wv_lt; lia).
    assert (Wv (2 ^ 52) e2 <= Wv (Zpos m2) e2) by (apply Wv_le; lia).
    rewrite Wv_pow in * by lia.
    pose proof (pow2_le (53 + e1 + 2200) (52 + e2 + 2200) ltac:(lia)). lia.
  - symmetry. apply Z.compare_gt_iff. specialize (Hn1 ltac:(lia)).
    assert (Wv (Zpos m2) e2 < Wv (2 ^ 53) e2) by (apply Wv_lt; lia).
    assert (Wv (2 ^ 52) e1 <= Wv (Zpos m1) e1) by (apply Wv_le; lia).
    rewrite Wv_pow in * by lia.
    pose proof (pow2_le (53 + e2 + 2200) (52 + e1 + 2200) ltac:(lia)). lia.
Qed.

(** On such numbers the comparisons of binary64 are those of the
    values. *)
Lemma compare_value (x y : float) :
  fin (Prim2SF x) -> fin (Prim2SF y) ->
  SFcompare (Prim2SF x) (Prim2SF y) = Some (value x ?= value y).
Proof.
  unfold value. pose proof (Prim2SF_valid x) as Hx. pose proof (Prim2SF_valid y) as Hy.
  destruct (Prim2SF x) as [[|]|[|]| |[|] m1 e1]; cbn [fin]; try contradiction; intros _;
    destruct (Prim2SF y) as [[|]|[|]| |[|] m2 e2]; cbn [fin]; try contradiction; intros _;
    cbn [valid_binary] in Hx, Hy.
  - reflexivity.
  - apply bounded_grid in Hy. destruct Hy as [(_ & Hlo & _) _].
    pose proof (Wv_pos (Zpos m2) e2 ltac:(lia) ltac:(lia)) as Hp. cbn [SFcompare val].
    f_equal. symmetry. now apply Z.compare_lt_iff.
  - apply bounded_grid in Hx. destruct Hx as [(_ & Hlo & _) _].
    pose proof (Wv_pos (Zpos m1) e1 ltac:(lia) ltac:(lia)) as Hp. cbn [SFcompare val].
    f_equal. symmetry. now apply Z.compare_gt_iff.
  - apply bounded_grid in Hx, Hy. cbn [val]. apply finite_compare; tauto.
Qed.

Lemma leb_value (x y : float) :
  fin (Prim2SF x) -> fin (Prim2SF y) ->
  PrimFloat.leb x y = true <-> value x <= value y.
Proof.
  intros Hx Hy. rewrite leb_spec. unfold SFleb. rewrite (compare_value x y Hx Hy).
  destruct (Z.compare_spec (value x) (value y)); split; intros; try lia; try reflexivity;
    discriminate.
Qed.

Lemma ltb_value (x y : float) :
  fin (Prim2SF x) -> fin (Prim2SF y) ->
  PrimFloat.ltb x y = true <-> value x < value y.
Proof.
  intros Hx Hy. rewrite ltb_spec. unfold SFltb. rewrite (compare_value x y Hx Hy).
  destruct (Z.compare_spec (value x) (value y)); split; intros; try lia; try reflexivity;
    discriminate.
Qed.

Lemma fin_not_nan (x : float) : fin (Prim2SF x) -> PrimFloat.is_nan x = false.
Proof.
  intros Hx. unfold PrimFloat.is_nan. rewrite eqb_spec. unfold SFeqb.
  rewrite (compare_value x x Hx Hx), Z.compare_refl. reflexivity.
Qed.

Lemma fin_zero (x : float) :
  fin (Prim2SF x) -> PrimFloat.is_zero x = true -> Prim2SF x = S754_zero false.
Proof.
  unfold PrimFloat.is_zero. rewrite eqb_spec. unfold SFeqb.
  change (Prim2SF 0%float) with (S754_zero false).
  destruct (Prim2SF x) as [[|]|[|]| |[|] m e]; cbn; try contradiction; try reflexivity.
  discriminate.
Qed.


(** ** The operations of one smoothing step *)

Lemma float_max_cases (r v : float) :
  fin (Prim2SF r) -> fin (Prim2SF v) ->
  (value r < value v /\ JS.float_max r v = v)
  \/ (value v <= value r /\ JS.float_max r v = r).
Proof.
  intros Hr Hv. unfold JS.float_max.
  rewrite (fin_not_nan r Hr), (fin_not_nan v Hv). cbn [orb].
  destruct (PrimFloat.ltb r v) eqn:Hrv.
  - left. split; [|reflexivity]. now apply ltb_value.
  - right.
    assert (Hle : value v <= value r).
    { destruct (Z.le_gt_cases (value v) (value r)) as [|Hgt]; [assumption|].
      apply (ltb_value r v Hr Hv) in Hgt. congruence. }
    split; [exact Hle|].
    destruct (PrimFloat.ltb v r) eqn:Hvr; [reflexivity|].
    destruct (PrimFloat.is_zero r) eqn:Hz; [|reflexivity].
    apply Prim2SF_inj. rewrite add_spec. unfold SF64add.
    pose proof (fin_zero r Hr Hz) as Hr0.
    assert (Hv0 : value v = 0).
    { pose proof (value_nonneg v). unfold value in Hle at 2. rewrite Hr0 in Hle.
      cbn [val] in Hle. lia. }
    rewrite Hr0. unfold value in Hv0. pose proof (Prim2SF_valid v) as Hval.
    destruct (Prim2SF v) as [[|]|[|]| |[|] m e]; cbn [fin] in Hv; try contradiction.
    + reflexivity.
    + exfalso. cbn [valid_binary] in Hval. apply bounded_grid in Hval.
      destruct Hval as [(_ & Hlo & _) _]. cbn [val] in Hv0.
      pose proof (Wv_pos (Zpos m) e ltac:(lia) ltac:(lia)). lia.
Qed.

(** Aligning a mantissa on a smaller exponent keeps the value. *)
Lemma shl_align_value (m : positive) (e ez : Z) :
  -2200 <= ez -> ez <= e ->
  Wv (Zpos (fst (shl_align m e ez))) ez = Wv (Zpos m) e.
Proof.
  intros Hz Hle. unfold shl_align.
  destruct (ez - e) as [|d|d] eqn:Hd; cbn [fst]; [| lia |].
  - now replace ez with e by lia.
  - change (Pos.iter xO m d) with (shift_pos d m).
    rewrite shift_pos_correct. change (Z.pow_pos 2 d) with (2 ^ Zpos d).
    rewrite Z.mul_comm, Wv_shift by lia. f_equal. lia.
Qed.

Lemma Wv_add (a b e : Z) : Wv (a + b) e = Wv a e + Wv b e.
Proof. unfold Wv. ring. Qed.

Lemma Wv_sub (a b e : Z) : Wv (a - b) e = Wv a e - Wv b e.
Proof. unfold Wv. ring. Qed.

Lemma fin_cases (x : float) :
  fin (Prim2SF x) ->
  (Prim2SF x = S754_zero false /\ value x = 0)
  \/ (exists m e, Prim2SF x = S754_finite false m e /\ grid (Zpos m) e /\ e <= 971
                  /\ value x = Wv (Zpos m) e /\ 0 < value x).
Proof.
  unfold value. pose proof (Prim2SF_valid x) as Hv.
  destruct (Prim2SF x) as [[|]|[|]| |[|] m e]; cbn [fin]; try contradiction; intros _.
  - now left.
  - right. cbn [valid_binary] in Hv. apply bounded_grid in Hv. destruct Hv as [Hg He].
    exists m, e. cbn [val]. split; [reflexivity|]. split; [exact Hg|].
    split; [exact He|]. split; [reflexivity|].
    destruct Hg as (_ & Hlo & _). apply Wv_pos; lia.
Qed.

(** [v - r] for [r <= v]: the difference is rounded to a number that is
    finite and not negative, at most twice a number [g] of the grid that
    does not exceed the exact difference. *)
Lemma sub_bounds (v r : float) :
  fin (Prim2SF r) -> fin (Prim2SF v) -> value r <= value v ->
  fin (Prim2SF (v - r))
  /\ exists gm ge,
       grid gm ge /\ Wv gm ge <= value v - value r
       /\ value (v - r) <= 2 * Wv gm ge.
Proof.
  intros Hr Hv Hle.
  destruct (fin_grid v Hv) as (vm & ve & Hgv & Hvv & Hvmax).
  unfold value at 3. rewrite sub_spec. unfold SF64sub.
  destruct (fin_cases r Hr) as [[Hr0 Hrv]|(mr & er & Hr0 & Hgr & Her & Hrv & Hrp)];
    rewrite Hr0;
    (destruct (fin_cases v Hv) as [[Hv0 Hvz]|(mv & ev & Hv0 & Hgv' & Hev & Hvz & Hvp)];
     rewrite Hv0).
  - cbn [SFsub fin val]. split; [exact I|].
    exists 0, (-1074). split; [split; [lia|split; lia]|]. cbn. lia.
  - cbn [SFsub fin val]. split; [exact I|].
    exists (Zpos mv), ev. split; [exact Hgv'|]. lia.
  - lia.
  - cbn [SFsub cond_Zopp].
    set (ez := Z.min ev er).
    assert (Hez : -1074 <= ez) by (destruct Hgr as (_ & ? & _), Hgv' as (_ & ? & _); lia).
    pose proof (shl_align_value mv ev ez ltac:(lia) ltac:(lia)) as HA.
    pose proof (shl_align_value mr er ez ltac:(lia) ltac:(lia)) as HB.
    set (A := Zpos (fst (shl_align mv ev ez))) in *.
    set (B := Zpos (fst (shl_align mr er ez))) in *.
    assert (HAB : B <= A).
    { apply (Wv_le_inv B A ez); lia. }
    assert (HS : Wv (A - B) ez = value v - value r) by (rewrite Wv_sub; lia).
    destruct (A - B) as [|n|n] eqn:Hn; [| |lia]; cbn [binary_normalize].
    + cbn [fin val]. split; [exact I|].
      exists 0, (-1074). split; [split; [lia|split; lia]|]. cbn. lia.
    + destruct (binary_round_align n ez ltac:(lia)) as (M' & E' & -> & HW & HE' & HB' & HE1).
      specialize (HE1 Hez).
      destruct (round_trunc M' E' HE1 HE') as (F & e1 & HgF & HF1 & HFle & Hz).
      destruct (round_upper M' E' vm ve HB' HE' Hgv Hvmax ltac:(lia)) as [Hfin Hup].
      split; [exact Hfin|].
      exists F, e1. split; [exact HgF|]. split; [lia|].
      destruct Hz as [Hinf|[_ Hb]].
      * rewrite Hinf in Hfin. contradiction.
      * etransitivity; [exact Hb|].
        destruct HgF as (_ & He1 & _).
        replace (2 * Wv F e1) with (Wv (2 * F) e1) by (unfold Wv; ring).
        apply Wv_le; lia.
Qed.

(** [d * rate] for a rate of at most one half whose mantissa is
    normal. *)
Lemma mul_bounds (d rate : float) (mc : positive) (ec gm ge : Z) :
  Prim2SF rate = S754_finite false mc ec ->
  2 ^ 52 <= Zpos mc ->
  2 * Wv (Zpos mc) ec <= 2 ^ 2200 ->
  fin (Prim2SF d) ->
  grid gm ge -> Wv gm ge < Wv (2 ^ 52) 972 ->
  value d <= 2 * Wv gm ge ->
  fin (Prim2SF (d * rate)) /\ value (d * rate) <= Wv gm ge.
Proof.
  intros Hc Hmc Hhalf Hd Hg Hgmax Hle.
  pose proof (Prim2SF_valid rate) as Hvc. rewrite Hc in Hvc. cbn [valid_binary] in Hvc.
  apply bounded_grid in Hvc. destruct Hvc as [(_ & Hec & _) _].
  assert (Hg0 : 0 <= Wv gm ge).
  { destruct Hg as ([? _] & ? & _). unfold Wv.
    pose proof (Wv_pos_factor ge ltac:(lia)). nia. }
  unfold value at 1. rewrite mul_spec. unfold SF64mul. rewrite Hc.
  destruct (fin_cases d Hd) as [[Hd0 Hdv]|(md & ed & Hd0 & Hgd & Hed & Hdv & Hdp)];
    rewrite Hd0; cbn [SFmul xorb].
  - cbn [fin val]. split; [exact I|exact Hg0].
  - assert (HM : Zpos (md * mc) = Zpos md * Zpos mc) by reflexivity.
    set (M := (md * mc)%positive) in *.
    destruct Hgd as ((Hmd0 & _) & Hed0 & _).
    assert (HE : ed + ec <= fexp prec emax (dig M + (ed + ec))).
    { rewrite fexp_eq. pose proof (dig_spec M) as [_ Hd2]. pose proof (dig_pos M).
      assert (2 ^ 52 <= Zpos M) by (rewrite HM; nia).
      pose proof (pow2_order (Zpos M) (dig M) 52 ltac:(lia) ltac:(lia) Hd2 H0). lia. }
    apply round_upper; try assumption; [lia|].
    (* the exact product, in units of [2^-2200] *)
    assert (Hprod : Wv (Zpos M) (ed + ec) * 2 ^ 2200 = Wv (Zpos md) ed * Wv (Zpos mc) ec).
    { unfold Wv. rewrite HM.
      assert (P1 : 2 ^ (ed + ec + 2200) = 2 ^ (ed + 1074) * 2 ^ (ec + 1074) * 2 ^ 52).
      { rewrite <- !pow2_add by lia. f_equal. lia. }
      assert (P2 : 2 ^ (ed + 2200) = 2 ^ (ed + 1074) * 2 ^ 1126).
      { rewrite <- pow2_add by lia. f_equal. lia. }
      assert (P3 : 2 ^ (ec + 2200) = 2 ^ (ec + 1074) * 2 ^ 1126).
      { rewrite <- pow2_add by lia. f_equal. lia. }
      assert (P4 : 2 ^ 52 * 2 ^ 2200 = 2 ^ 1126 * 2 ^ 1126) by reflexivity.
      rewrite P1, P2, P3.
      remember (2 ^ 2200) as t. remember (2 ^ 1126) as p. remember (2 ^ 52) as u.
      transitivity (Zpos md * Zpos mc * 2 ^ (ed + 1074) * 2 ^ (ec + 1074) * (u * t));
        [ring|rewrite P4; ring]. }
    rewrite <- Hdv in Hprod.
    assert (H2200 : 0 < 2 ^ 2200) by (apply pow2_pos; lia).
    assert (Hc0 : 0 <= Wv (Zpos mc) ec).
    { unfold Wv. pose proof (Wv_pos_factor ec ltac:(lia)). nia. }
    pose proof (value_nonneg d).
    assert (Wv (Zpos M) (ed + ec) * 2 ^ 2200 <= Wv gm ge * 2 ^ 2200) by nia.
    nia.
Qed.

(** [r + e] for an increment [e] that does not pass [v]. *)
Lemma add_bounds (r e v : float) :
  fin (Prim2SF r) -> fin (Prim2SF e) -> fin (Prim2SF v) ->
  value r + value e <= value v ->
  fin (Prim2SF (r + e)) /\ value r <= value (r + e) <= value v.
Proof.
  intros Hr He Hv Hle.
  destruct (fin_grid v Hv) as (vm & ve & Hgv & Hvv & Hvmax).
  destruct (fin_grid r Hr) as (rm & re & Hgr & Hrr & _).
  pose proof (value_nonneg r). pose proof (value_nonneg e).
  unfold value at 2 3. rewrite add_spec. unfold SF64add.
  destruct (fin_cases r Hr) as [[Hr0 Hrv]|(mr & er & Hr0 & Hgr' & Her & Hrv & Hrp)];
    rewrite Hr0;
    (destruct (fin_cases e He) as [[He0 Hev]|(me & ee & He0 & Hge & Hee & Hev & Hep)];
     rewrite He0).
  - cbn [SFadd fin val]. split; [exact I|]. lia.
  - cbn [SFadd fin val]. split; [exact I|]. lia.
  - cbn [SFadd fin val]. split; [exact I|]. lia.
  - cbn [SFadd cond_Zopp].
    set (ez := Z.min er ee).
    assert (Hez : -1074 <= ez) by (destruct Hgr' as (_ & ? & _), Hge as (_ & ? & _); lia).
    pose proof (shl_align_value mr er ez ltac:(lia) ltac:(lia)) as HA.
    pose proof (shl_align_value me ee ez ltac:(lia) ltac:(lia)) as HB.
    set (A := fst (shl_align mr er ez)) in *.
    set (B := fst (shl_align me ee ez)) in *.
    change (Zpos A + Zpos B) with (Zpos (A + B)). cbn [binary_normalize].
    assert (HS : Wv (Zpos (A + B)) ez = value r + value e).
    { change (Zpos (A + B)) with (Zpos A + Zpos B). rewrite Wv_add. lia. }
    destruct (binary_round_align (A + B) ez ltac:(lia)) as (M' & E' & -> & HW & HE' & HB' & _).
    destruct (round_upper M' E' vm ve HB' HE' Hgv Hvmax ltac:(lia)) as [Hfin Hup].
    split; [exact Hfin|]. split; [|lia].
    destruct (round_lower M' E' rm re HB' HE' Hgr ltac:(lia)) as [Hinf|[_ Hlow]].
    + rewrite Hinf in Hfin. contradiction.
    + lia.
Qed.

(** One step of the smoothing, [r + (max(r, v) - r) * rate]. *)
Lemma smooth_bounds (r v rate : float) (mc : positive) (ec : Z) :
  Prim2SF rate = S754_finite false mc ec ->
  2 ^ 52 <= Zpos mc ->
  2 * Wv (Zpos mc) ec <= 2 ^ 2200 ->
  fin (Prim2SF r) -> fin (Prim2SF v) ->
  let r' := (r + (JS.float_max r v - r) * rate)%float in
  fin (Prim2SF r')
  /\ value r <= value r' <= Z.max (value r) (value v)
  /\ (value v <= value r -> r' = r).
Proof.
  intros Hc Hmc Hhalf Hr Hv r'.
  assert (Hmax : exists m, JS.float_max r v = m /\ fin (Prim2SF m)
                           /\ value m = Z.max (value r) (value v)).
  { destruct (float_max_cases r v Hr Hv) as [[Hlt ->]|[Hle ->]].
    - exists v. repeat split; [assumption|lia].
    - exists r. repeat split; [assumption|lia]. }
  destruct Hmax as (m & Hm & Hfm & Hvm). unfold r'. rewrite Hm.
  destruct (sub_bounds m r Hr Hfm ltac:(lia)) as (Hd & gm & ge & Hg & Hgle & Hdle).
  destruct (fin_grid m Hfm) as (vm & ve & _ & Hvv & Hvmax).
  pose proof (value_nonneg r) as Hr0.
  destruct (mul_bounds (m - r) rate mc ec gm ge Hc Hmc Hhalf Hd Hg ltac:(lia) Hdle)
    as [He Hele].
  destruct (add_bounds r ((m - r) * rate) m Hr He Hfm ltac:(lia)) as [Hfin Hb].
  split; [exact Hfin|]. split; [lia|].
  intros Hle.
  (* nothing to add: the value is unchanged, and so is the number *)
  apply Prim2SF_inj.
  assert (Hz : Prim2SF ((m - r) * rate) = S754_zero false).
  { pose proof (value_nonneg ((m - r) * rate)) as H0.
    destruct (fin_cases _ He) as [[Hz _]|(? & ? & _ & _ & _ & _ & Hp)]; [exact Hz|].
    destruct Hg as ([? _] & ? & _). lia. }
  rewrite add_spec. unfold SF64add. rewrite Hz.
  destruct (Prim2SF r) as [[|]|[|]| |[|] mr er]; cbn [fin] in Hr; try contradiction;
    reflexivity.
Qed.


(** ** Rounding with any location: sign and size *)

Lemma fin_pos_shape (z : spec_float) : fin z -> pos_shape z.
Proof. destruct z as [[|]|[|]| |[|] m e]; cbn; auto. Qed.

Lemma Zdigits2_bound (m a : Z) : 0 <= a -> 0 <= m < 2 ^ a -> Zdigits2 m <= a.
Proof.
  intros Ha [H0 H]. destruct m as [|p|p]; cbn [Zdigits2]; [lia| |lia].
  pose proof (dig_spec p) as [Hd _]. pose proof (dig_pos p). fold (dig p).
  enough (dig p - 1 < a) by lia.
  apply (pow2_order (Zpos p)); lia.
Qed.

Lemma shr_fexp_spec (m e : Z) (l : location) :
  0 <= m ->
  0 <= shr_m (fst (shr_fexp prec emax m e l)) <= m
  /\ snd (shr_fexp prec emax m e l) = Z.max e (fexp prec emax (Zdigits2 m + e)).
Proof.
  intros Hm. unfold shr_fexp, shr.
  assert (Hrec : shr_m (shr_record_of_loc m l) = m) by (destruct l as [|[ | | ]]; reflexivity).
  destruct (fexp prec emax (Zdigits2 m + e) - e) as [|p|p] eqn:Hn; cbn [fst snd].
  - rewrite Hrec. lia.
  - destruct (iter_shifted p (shr_record_of_loc m l) ltac:(lia)) as (H1 & H2 & _).
    rewrite Hrec in H1. split; [|lia]. split; [exact H2|]. rewrite H1.
    pose proof (pow2_pos (Zpos p) ltac:(lia)).
    apply Z.div_le_upper_bound; [lia|nia].
  - rewrite Hrec. lia.
Qed.


(** A small mantissa with an exponent that is not positive does not
    overflow. *)
Lemma round_aux_small (m e : Z) (l : location) :
  0 <= m < 2 ^ 60 -> e <= 0 -> fin (binary_round_aux prec emax false m e l).
Proof.
  intros Hm He. unfold binary_round_aux.
  pose proof (shr_fexp_spec m e l ltac:(lia)) as [H1 H1e].
  destruct (shr_fexp prec emax m e l) as [mrs' e']. cbn [fst snd] in H1, H1e.
  set (m1 := round_nearest_even (shr_m mrs') (loc_of_shr_record mrs')).
  assert (Hm1 : 0 <= m1 < 2 ^ 61).
  { change (2 ^ 61) with (2 * 2 ^ 60).
    destruct (round_nearest_even_cases mrs') as [Hc|[Hc _]]; fold m1 in Hc; lia. }
  pose proof (shr_fexp_spec m1 e' loc_Exact ltac:(lia)) as [H2 H2e].
  destruct (shr_fexp prec emax m1 e' loc_Exact) as [mrs'' e'']. cbn [fst snd] in H2, H2e.
  pose proof (Zdigits2_bound m 60 ltac:(lia) Hm).
  pose proof (Zdigits2_bound m1 61 ltac:(lia) Hm1).
  rewrite fexp_eq in H1e, H2e.
  destruct (shr_m mrs'') as [|p|p]; [exact I| |lia].
  change (emax - prec) with 971.
  destruct (Z.leb_spec e'' 971); [exact I|lia].
Qed.

(** ** Division, product and clamp of a frame *)

(** [x / y] for positive finite numbers, the exponent of [x] not above
    that of [y]. *)
Lemma div_fin (x y : float) (mx my : positive) (ex ey : Z) :
  Prim2SF x = S754_finite false mx ex ->
  Prim2SF y = S754_finite false my ey ->
  ex <= ey ->
  fin (Prim2SF (x / y)).
Proof.
  intros Hx Hy Hle.
  pose proof (Prim2SF_valid x) as Vx. rewrite Hx in Vx. cbn [valid_binary] in Vx.
  apply bounded_grid in Vx. destruct Vx as [((_ & Hmx) & _ & _) _].
  rewrite div_spec. unfold SF64div. rewrite Hx, Hy. cbn [SFdiv xorb].
  unfold SFdiv_core_binary. cbn [Zdigits2]. fold (dig mx) (dig my). rewrite fexp_eq.
  pose proof (dig_spec mx) as [Hx1 Hx2]. pose proof (dig_spec my) as [Hy1 Hy2].
  pose proof (dig_pos mx). pose proof (dig_pos my).
  set (e' := Z.min (Z.max (dig mx + ex - (dig my + ey) - 53) (-1074)) (ex - ey)).
  set (s := ex - ey - e').
  set (m' := match s with
             | 0 => Zpos mx
             | Zpos _ => Z.shiftl (Zpos mx) s
             | Zneg _ => 0
             end).
  assert (Hs : 0 <= s) by (unfold s, e'; lia).
  assert (Hm' : m' = Zpos mx * 2 ^ s).
  { unfold m'. destruct s as [|p|p] eqn:Es; [cbn; lia| |lia].
    now rewrite Z.shiftl_mul_pow2 by lia. }
  assert (Hq : 0 <= m' / Zpos my < 2 ^ 60).
  { pose proof (pow2_pos s Hs). split; [apply Z.div_pos; nia|].
    apply Z.div_lt_upper_bound; [lia|].
    assert (Hb : m' < 2 ^ (dig my - 1) * 2 ^ 60).
    { rewrite Hm', <- pow2_add by lia.
      destruct (Z.eq_dec s 0) as [Hs0|Hs0].
      - rewrite Hs0. change (2 ^ 0) with 1. rewrite Z.mul_1_r.
        eapply Z.lt_le_trans; [exact Hmx|]. apply pow2_le. lia.
      - eapply Z.lt_le_trans; [apply Z.mul_lt_mono_pos_r; [lia|exact Hx2]|].
        rewrite <- pow2_add by lia. apply pow2_le. unfold s, e' in *. lia. }
    pose proof (pow2_pos 60 ltac:(lia)). nia. }
  unfold Z.div in Hq.
  destruct (Z.div_eucl m' (Zpos my)) as [q r].
  apply round_aux_small; [exact Hq|unfold e'; lia].
Qed.






End Binary64Facts.

(* ================================================================== *)
(** * Properties of the visualizer *)
(* ================================================================== *)

Module VisualizerFacts.

Import Visualizer SmootherSpec.

(** ** The loop of [getMaxForRange] *)

Lemma skipn_nth (l : list byte) (start : nat) :
  (start < List.length l)%nat ->
  skipn start l = nth start l x00 :: skipn (S start) l.
Proof.
  revert start; induction l as [|x l IH]; intros [|start] H; simpl in *;
    try lia; auto.
  apply IH; lia.
Qed.

Lemma byte_nonneg (x : byte) : (0 <= Z.of_N (Byte.to_N x))%Z.
Proof. lia. Qed.

Lemma max_bins_nonneg (l : list byte) :
  (0 <= fold_right Z.max 0%Z (map (fun x => Z.of_N (Byte.to_N x)) l))%Z.
Proof. induction l; simpl; lia. Qed.

Lemma loop_is_max (dataArray : list byte) (n start : nat) (acc : Z) :
  (start + n <= List.length dataArray)%nat ->
  (0 <= acc)%Z ->
  fold_left
    (fun max i => if (byte_at dataArray i >? max)%Z then byte_at dataArray i else max)
    (seq start n) acc
  = Z.max acc
      (fold_right Z.max 0%Z
         (map (fun x => Z.of_N (Byte.to_N x)) (firstn n (skipn start dataArray)))).
Proof.
  revert start acc; induction n as [|n IH]; intros start acc H Hacc.
  - simpl. lia.
  - rewrite (skipn_nth dataArray start) by lia.
    cbn [seq fold_left firstn map fold_right].
    unfold byte_at in *.
    pose proof (byte_nonneg (nth start dataArray x00)).
    pose proof (max_bins_nonneg (firstn n (skipn (S start) dataArray))).
    destruct (Z.gtb_spec (Z.of_N (Byte.to_N (nth start dataArray x00))) acc).
    all: rewrite IH by lia; lia.
Qed.

Lemma firstn_min_length {A : Type} (n : nat) (l : list A) :
  firstn (Nat.min n (List.length l)) l = firstn n l.
Proof.
  rewrite <- firstn_firstn. now rewrite firstn_all.
Qed.

Lemma getMaxForRange_raw_max (dataArray : list byte) (b : band) :
  getMaxForRange dataArray (first_bin b) (end_bin b) = raw_max dataArray b.
Proof.
  unfold getMaxForRange, raw_max, bins.
  set (len := List.length dataArray).
  destruct (Nat.le_gt_cases (first_bin b) len) as [Hle|Hgt].
  - rewrite loop_is_max by (fold len; lia).
    pose proof (max_bins_nonneg
      (firstn (Nat.min (end_bin b) len - first_bin b) (skipn (first_bin b) dataArray))).
    rewrite Z.max_r by assumption.
    rewrite <- (firstn_min_length (end_bin b - first_bin b)).
    rewrite length_skipn. fold len.
    replace (Nat.min (end_bin b - first_bin b) (len - first_bin b))
      with (Nat.min (end_bin b) len - first_bin b)%nat by lia.
    reflexivity.
  - replace (Nat.min (end_bin b) len - first_bin b)%nat with 0%nat by lia.
    rewrite skipn_all2 by (fold len; lia).
    now rewrite firstn_nil.
Qed.

(** ** The frame against the specification's wording *)

Section Refinement.

Context {F : Type} {num : JS.Number F}.

(** [recentMaxValues] has three entries at mount, and [map] keeps their
    number: the reads [arr[idx]] of a frame stay inside the arrays. *)
Lemma map_idx_from_length {A B : Type} (f : A -> nat -> B) (idx : nat) (arr : list A) :
  List.length (map_idx_from f idx arr) = List.length arr.
Proof.
  revert idx; induction arr as [|val rest IH]; intros idx; simpl; auto.
Qed.

Lemma update_history_length (snapshot : list byte) (c : component F) :
  List.length (recentMaxValues (update snapshot c))
  = List.length (recentMaxValues c).
Proof.
  unfold update, frame. cbn [recentMaxValues].
  apply map_idx_from_length.
Qed.

Lemma bandVals_spec (snapshot : list byte) :
  bandVals snapshot =
  [compressed_gained snapshot Bass; compressed_gained snapshot Mid;
   compressed_gained snapshot Treble].
Proof.
  unfold bandVals, compressed_gained.
  rewrite <- (getMaxForRange_raw_max snapshot Bass),
          <- (getMaxForRange_raw_max snapshot Mid),
          <- (getMaxForRange_raw_max snapshot Treble).
  reflexivity.
Qed.

Lemma frame_by_band (snapshot : list byte) (rb rm rt : F) :
  frame snapshot [rb; rm; rt] =
  ([output snapshot Bass rb; output snapshot Mid rm; output snapshot Treble rt],
   [running_max' snapshot Bass rb; running_max' snapshot Mid rm;
    running_max' snapshot Treble rt]).
Proof.
  unfold frame. rewrite bandVals_spec. reflexivity.
Qed.

(** C1.  One frame of the visualization loop, for any snapshot of byte
    magnitudes and any three running maxima, is the function the
    specification describes: per band, the maximum over the band's bins,
    compressed by [sqrt(raw/255)*100], times the band gain; the running
    max moved by [(max(runningMax, value) - runningMax) * 0.05]; the value
    scaled by [80/runningMax] when the new running max exceeds 80; the
    result clamped to [5,90].  [update] stores that three-tuple in
    [amplitudes] and those running maxima in [recentMaxValues].  This holds in whatever arithmetic the numbers are
    computed, binary64 included. *)
Theorem frame_is_smoother_step
        (snapshot : list byte) (rb rm rt : F) (amps : list F)
        (context analyser source requested : bool) :
  let c := {| amplitudes := amps; audioContextRef := context;
              analyserRef := analyser; sourceRef := source;
              animationFrameRef := requested;
              recentMaxValues := [rb; rm; rt] |} in
  let emitted :=
    [output snapshot Bass rb; output snapshot Mid rm; output snapshot Treble rt] in
  let history :=
    [running_max' snapshot Bass rb; running_max' snapshot Mid rm;
     running_max' snapshot Treble rt] in
  frame snapshot [rb; rm; rt] = (emitted, history)
  /\ amplitudes (update snapshot c) = emitted
  /\ recentMaxValues (update snapshot c) = history.
Proof.
  intros c emitted history.
  pose proof (frame_by_band snapshot rb rm rt) as Hframe.
  split; [exact Hframe|].
  unfold update, c. cbn [recentMaxValues].
  rewrite Hframe. split; reflexivity.
Qed.

End Refinement.

(** ** Runs of frames *)

Lemma frames_cons_snd {F : Type} {num : JS.Number F}
      (snapshot : list byte) (rest : list (list byte)) (recent : list F) :
  snd (frames (snapshot :: rest) recent)
  = snd (frames rest (snd (frame snapshot recent))).
Proof.
  cbn [frames]. destruct (frame snapshot recent) as [amps recent'].
  cbn [snd]. now destruct (frames rest recent').
Qed.


(** ** Runs in binary64 *)

(** The quotients that stand for the decimal literals are the doubles
    the literals denote: 0.05, 1.2, 1.7 and 2.2. *)
Example literals_binary64 :
  (adaptationRate, bassGain, midGain, trebleGain)
  = (0x1.999999999999ap-5, 0x1.3333333333333p+0, 0x1.b333333333333p+0,
     0x1.199999999999ap+1)%float.
Proof. reflexivity. Qed.

(** The first frame after a mount, on a full-scale snapshot: every bar
    is at the ceiling, and the running maxima are 6, 8.5 and (rounded)
    11. *)
Example first_frame_binary64 :
  frame full_scale [0; 0; 0]%float
  = ([90; 90; 90], [6; 0x1.1p+3; 0x1.6000000000001p+3])%float.
Proof. vm_compute. reflexivity. Qed.

(** Twenty such frames: the bass running max is still below 78. *)
Example twenty_frames_binary64 :
  PrimFloat.ltb
    (nth 0 (snd (frames (repeat full_scale 20) [0; 0; 0]%float)) PrimFloat.nan)
    78%float = true.
Proof. vm_compute. reflexivity. Qed.

(** ** Stopping *)

(** C8 (amended).  [stopVisualization] puts the amplitudes back to
    [[0, 0, 0]] and leaves [recentMaxValues] as it is, so the next run
    continues from the running maxima the last one reached; they are zero
    at mount only. *)
Theorem stop_keeps_running_max {F : Type} {num : JS.Number F}
        (c : component F) (snapshot : list byte) :
  recentMaxValues (stopVisualization c) = recentMaxValues c
  /\ amplitudes (stopVisualization c) = [JS.of_Z 0; JS.of_Z 0; JS.of_Z 0]
  /\ recentMaxValues
       (update snapshot (startVisualization true (stopVisualization c)))
     = snd (frame snapshot (recentMaxValues c))
  /\ recentMaxValues (mount (F:=F)) = [JS.of_Z 0; JS.of_Z 0; JS.of_Z 0].
Proof.
  split; [reflexivity|]. split; [reflexivity|]. split; [|reflexivity].
  unfold update, startVisualization, stopVisualization.
  cbn [recentMaxValues].
  now destruct (frame snapshot (recentMaxValues c)).
Qed.

(** C8, as stated, fails.  In binary64: mount, start, one frame on a
    full-scale snapshot, stop.  The running maxima are still those of the
    frame (6 for the bass), not zero. *)
Lemma stop_counterexample :
  let stopped :=
    stopVisualization
      (update full_scale (startVisualization true (mount (F:=float)))) in
  nth 0 (recentMaxValues stopped) PrimFloat.nan = 6%float
  /\ amplitudes stopped = [0; 0; 0]%float
  /\ recentMaxValues stopped <> [0; 0; 0]%float.
Proof.
  cbv zeta. split; [vm_compute; reflexivity|].
  split; [vm_compute; reflexivity|].
  intros H.
  apply (f_equal (fun l => PrimFloat.eqb (nth 0 l PrimFloat.nan) 0%float)) in H.
  vm_compute in H. discriminate H.
Qed.

(** ** More on the frame *)

(** The loop of [getMaxForRange], for any range: what it returns bounds
    every byte it visited, and is the start value or one of these bytes. *)
Lemma loop_bounds (dataArray : list byte) (n start : nat) (acc : Z) :
  let r := fold_left
             (fun max i =>
                if (byte_at dataArray i >? max)%Z then byte_at dataArray i else max)
             (seq start n) acc in
  (acc <= r)%Z
  /\ (forall i, (start <= i < start + n)%nat -> (byte_at dataArray i <= r)%Z)
  /\ (r = acc
      \/ exists i, (start <= i < start + n)%nat /\ byte_at dataArray i = r).
Proof.
  revert start acc; induction n as [|n IH]; intros start acc; cbn zeta.
  - cbn [seq fold_left]. split; [lia|]. split; [intros i Hi; lia | now left].
  - cbn [seq fold_left].
    set (acc' := if (byte_at dataArray start >? acc)%Z
                 then byte_at dataArray start else acc).
    destruct (IH (S start) acc') as (Hacc & Hall & Hsome).
    assert (Hacc' : (acc <= acc')%Z /\ (byte_at dataArray start <= acc')%Z
                    /\ (acc' = acc \/ acc' = byte_at dataArray start)).
    { unfold acc'. destruct (Z.gtb_spec (byte_at dataArray start) acc); lia. }
    split; [lia|]. split.
    + intros i Hi. destruct (Nat.eq_dec i start) as [->|Hne]; [lia|].
      apply Hall. lia.
    + destruct Hsome as [Hr | (i & Hi & Hr)].
      * destruct Hacc' as (_ & _ & [Ha | Ha]).
        -- left. congruence.
        -- right. exists start. split; [lia | congruence].
      * right. exists i. split; [lia | exact Hr].
Qed.

Lemma byte_at_range (dataArray : list byte) (i : nat) :
  (0 <= byte_at dataArray i <= 255)%Z.
Proof.
  unfold byte_at. pose proof (Byte.to_N_bounded (nth i dataArray x00)). lia.
Qed.

(** X1.  [getMaxForRange], for any array and any range: the result lies
    in 0..255, no bin of the array inside the range exceeds it, and it is
    the value of one of these bins unless it is 0. *)
Theorem getMaxForRange_is_maximum (dataArray : list byte) (start end_ : nat) :
  (0 <= getMaxForRange dataArray start end_ <= 255)%Z
  /\ (forall i, (start <= i < end_)%nat -> (i < List.length dataArray)%nat ->
        (byte_at dataArray i <= getMaxForRange dataArray start end_)%Z)
  /\ (getMaxForRange dataArray start end_ = 0%Z
      \/ exists i, (start <= i < end_)%nat /\ (i < List.length dataArray)%nat
                   /\ byte_at dataArray i = getMaxForRange dataArray start end_).
Proof.
  unfold getMaxForRange.
  set (n := (Nat.min end_ (List.length dataArray) - start)%nat).
  destruct (loop_bounds dataArray n start 0%Z) as (Hlow & Hall & Hsome).
  cbn zeta in *.
  split; [|split].
  - split; [exact Hlow|].
    destruct Hsome as [-> | (i & _ & <-)]; [lia | apply byte_at_range].
  - intros i Hi Hlen. apply Hall. unfold n. lia.
  - destruct Hsome as [Hr | (i & Hi & Hr)]; [now left|].
    right. exists i. unfold n in Hi. split; [lia|]. split; [lia | exact Hr].
Qed.

(** ** The running maxima in binary64 *)

Section Running.

Import Binary64 Binary64Facts.

Lemma getMaxForRange_range (dataArray : list byte) (start end_ : nat) :
  (0 <= getMaxForRange dataArray start end_ <= 255)%Z.
Proof.
  unfold getMaxForRange.
  set (n := (Nat.min end_ (List.length dataArray) - start)%nat).
  destruct (loop_bounds dataArray n start 0%Z) as (Hlow & _ & Hsome).
  cbn zeta in *. split; [exact Hlow|].
  destruct Hsome as [-> | (i & _ & <-)]; [lia | apply byte_at_range].
Qed.

Lemma raw_max_range (snapshot : list byte) (b : band) :
  (0 <= raw_max snapshot b <= 255)%Z.
Proof.
  rewrite <- getMaxForRange_raw_max. apply getMaxForRange_range.
Qed.

(** The gained value of a band is a finite number that is not negative,
    for each of the 256 magnitudes. *)
Lemma gained_fin (b : band) (raw : Z) :
  (0 <= raw <= 255)%Z ->
  fin (Prim2SF (PrimFloat.mul (compress raw) (gain b))).
Proof.
  intros H. apply nonneg_number_fin.
  assert (Hall : forallb
                   (fun n => nonneg_number
                               (PrimFloat.mul (compress (Z.of_nat n)) (gain b)))
                   (seq 0 256) = true)
    by (destruct b; vm_compute; reflexivity).
  rewrite forallb_forall in Hall. specialize (Hall (Z.to_nat raw)).
  rewrite Z2Nat.id in Hall by lia. apply Hall. apply in_seq. lia.
Qed.

Lemma compressed_gained_fin (snapshot : list byte) (b : band) :
  fin (Prim2SF (compressed_gained snapshot b)).
Proof. apply gained_fin, raw_max_range. Qed.

(** The adaptation rate 0.05, as binary64 has it. *)
Lemma rate_binary64 :
  Prim2SF (decimal 5 100) = S754_finite false 7205759403792794 (-57).
Proof. vm_compute. reflexivity. Qed.

(** One step of a running max, by values. *)
Lemma smoothed_values (r v : float) :
  fin (Prim2SF r) -> fin (Prim2SF v) ->
  fin (Prim2SF (smoothed r v))
  /\ (value r <= value (smoothed r v) <= Z.max (value r) (value v))%Z
  /\ ((value v <= value r)%Z -> smoothed r v = r).
Proof.
  intros Hr Hv.
  apply (smooth_bounds r v (decimal 5 100) 7205759403792794 (-57));
    [exact rate_binary64|now vm_compute| |exact Hr|exact Hv].
  apply Z.leb_le. vm_compute. reflexivity.
Qed.

(** The adaptive scale is a finite number: [80 / runningMax] does not
    overflow for a running max above 80. *)
Lemma de_gain_fin (r : float) : fin (Prim2SF r) -> fin (Prim2SF (de_gain r)).
Proof.
  intros Hr. unfold de_gain. cbn [JS.gt JS.div JS.of_Z JS.float_number].
  change (JS.float_of_Z 80) with 80%float. change (JS.float_of_Z 1) with 1%float.
  destruct (PrimFloat.ltb 80 r) eqn:Hgt; [|exact I].
  rewrite ltb_spec in Hgt. unfold SFltb in Hgt.
  assert (H80 : Prim2SF 80 = S754_finite false 5629499534213120 (-46))
    by (vm_compute; reflexivity).
  rewrite H80 in Hgt.
  destruct (Prim2SF r) as [[|]|[|]| |[|] my ey] eqn:Er; cbn [fin] in Hr;
    try contradiction; [discriminate Hgt|].
  apply (div_fin 80 r 5629499534213120 my (-46) ey H80 Er).
  cbn [SFcompare] in Hgt.
  destruct (Z.compare_spec (-46) ey) as [ | |Hc]; [lia|lia|discriminate Hgt].
Qed.


Lemma running_max_step (snapshot : list byte) (b : band) (r : float) :
  nonneg_number r = true ->
  nonneg_number (running_max' snapshot b r) = true
  /\ PrimFloat.leb r (running_max' snapshot b r) = true.
Proof.
  intros Hr. apply nonneg_number_fin in Hr.
  destruct (smoothed_values r (compressed_gained snapshot b) Hr
              (compressed_gained_fin snapshot b)) as (Hfin & [Hlow _] & _).
  fold (running_max' snapshot b r) in Hfin, Hlow.
  split; [now apply nonneg_number_fin|]. now apply leb_value.
Qed.

(** C10.  Across a frame no running max goes down.  For every snapshot
    and every state of three running maxima, each a finite number that
    is not negative (this is what [recentMaxValues] holds from the mount
    on), every entry of [recentMaxValues] after [update] is at least the
    entry before it, and is again a finite number that is not negative. *)
Theorem running_max_never_decreases (snapshot : list byte) (c : component float) :
  List.length (recentMaxValues c) = 3%nat ->
  Forall (fun r => nonneg_number r = true) (recentMaxValues c) ->
  Forall2 (fun old new => PrimFloat.leb old new = true)
          (recentMaxValues c) (recentMaxValues (update snapshot c))
  /\ Forall (fun r => nonneg_number r = true)
            (recentMaxValues (update snapshot c)).
Proof.
  intros Hlen Hall. unfold update.
  destruct (recentMaxValues c) as [|rb [|rm [|rt [|]]]]; try discriminate Hlen.
  rewrite frame_by_band. cbn [recentMaxValues].
  inversion_clear Hall as [|? ? Hb Hall']. inversion_clear Hall' as [|? ? Hm Hall''].
  inversion_clear Hall'' as [|? ? Ht _].
  destruct (running_max_step snapshot Bass rb Hb) as [Hb1 Hb2].
  destruct (running_max_step snapshot Mid rm Hm) as [Hm1 Hm2].
  destruct (running_max_step snapshot Treble rt Ht) as [Ht1 Ht2].
  split; repeat constructor; assumption.
Qed.

Lemma running_max_never_decreases_witness :
  let c := update full_scale (mount (F:=float)) in
  Forall2 (fun old new => PrimFloat.leb old new = true)
          (recentMaxValues c) (recentMaxValues (update full_scale c))
  /\ Forall (fun r => nonneg_number r = true)
            (recentMaxValues (update full_scale c)).
Proof.
  apply (running_max_never_decreases full_scale (update full_scale (mount (F:=float)))).
  - reflexivity.
  - repeat constructor.
Defined.

(** *** A run on constant input *)

Lemma nth_position {A : Type} (f : band -> A) (b : band) (d : A) :
  nth (position b) [f Bass; f Mid; f Treble] d = f b.
Proof. destruct b; reflexivity. Qed.





(** *** Limits and silence *)

(** No magnitude gives a band more than full scale does. *)
Lemma gained_le_full_scale (b : band) (raw : Z) :
  (0 <= raw <= 255)%Z ->
  (value (PrimFloat.mul (compress raw) (gain b))
   <= value (PrimFloat.mul (compress 255) (gain b)))%Z.
Proof.
  intros H.
  assert (Hall : forallb
                   (fun n => PrimFloat.leb
                               (PrimFloat.mul (compress (Z.of_nat n)) (gain b))
                               (PrimFloat.mul (compress 255) (gain b)))
                   (seq 0 256) = true)
    by (destruct b; vm_compute; reflexivity).
  rewrite forallb_forall in Hall. specialize (Hall (Z.to_nat raw)).
  rewrite Z2Nat.id in Hall by lia.
  apply leb_value; [now apply gained_fin|apply gained_fin; lia|].
  apply Hall. apply in_seq. lia.
Qed.

Lemma frames_keep_limits (snapshots : list (list byte)) (rb rm rt : float) :
  (forall b,
      fin (Prim2SF (nth (position b) [rb; rm; rt] PrimFloat.nan))
      /\ (value (nth (position b) [rb; rm; rt] PrimFloat.nan)
          <= value (PrimFloat.mul (compress 255) (gain b)))%Z) ->
  forall b,
    fin (Prim2SF (nth (position b) (snd (frames snapshots [rb; rm; rt]))
                      PrimFloat.nan))
    /\ (value (nth (position b) (snd (frames snapshots [rb; rm; rt])) PrimFloat.nan)
        <= value (PrimFloat.mul (compress 255) (gain b)))%Z.
Proof.
  revert rb rm rt. induction snapshots as [|s rest IH]; intros rb rm rt H.
  - exact H.
  - rewrite frames_cons_snd, frame_by_band. cbn [snd]. apply IH. intros b.
    replace (nth (position b)
               [running_max' s Bass rb; running_max' s Mid rm;
                running_max' s Treble rt] PrimFloat.nan)
      with (running_max' s b (nth (position b) [rb; rm; rt] PrimFloat.nan))
      by (destruct b; reflexivity).
    destruct (H b) as [Hfin Hle].
    destruct (smoothed_values _ (compressed_gained s b) Hfin
                (compressed_gained_fin s b)) as (Hfin' & [_ Hup] & _).
    unfold running_max'. split; [exact Hfin'|].
    pose proof (gained_le_full_scale b (raw_max s b) (raw_max_range s b)) as Hv.
    change (PrimFloat.mul (compress (raw_max s b)) (gain b))
      with (compressed_gained s b) in Hv.
    lia.
Qed.

Lemma frames_three_maxima (snapshots : list (list byte)) (rb rm rt : float) :
  exists x y z, snd (frames snapshots [rb; rm; rt]) = [x; y; z].
Proof.
  revert rb rm rt. induction snapshots as [|s rest IH]; intros rb rm rt.
  - now exists rb, rm, rt.
  - rewrite frames_cons_snd, frame_by_band. cbn [snd]. apply IH.
Qed.

(** X2.  From the mount on, whatever the snapshots, each running max is
    a finite number that is not negative, and at most what a full-scale
    bin gives the band in binary64: 120 for the bass, 170 for the mid,
    220.00000000000003 for the treble. *)
Theorem running_max_within_limits (snapshots : list (list byte)) :
  Forall2 (fun x limit =>
             nonneg_number x = true /\ PrimFloat.leb x limit = true)
          (snd (frames snapshots (recentMaxValues (mount (F:=float)))))
          [120; 170; 0x1.b800000000001p+7]%float.
Proof.
  change (recentMaxValues (mount (F:=float))) with [0; 0; 0]%float.
  assert (H0 : forall b,
             fin (Prim2SF (nth (position b) [0; 0; 0]%float PrimFloat.nan))
             /\ (value (nth (position b) [0; 0; 0]%float PrimFloat.nan)
                 <= value (PrimFloat.mul (compress 255) (gain b)))%Z).
  { intros b. split; [destruct b; exact I|].
    destruct b; apply Z.leb_le; vm_compute; reflexivity. }
  pose proof (frames_keep_limits snapshots 0 0 0 H0) as H.
  destruct (frames_three_maxima snapshots 0 0 0) as (x & y & z & Hxyz).
  rewrite Hxyz in *.
  pose proof (H Bass) as [Hb1 Hb2]. pose proof (H Mid) as [Hm1 Hm2].
  pose proof (H Treble) as [Ht1 Ht2]. cbn [position nth] in *.
  assert (L : forall b, fin (Prim2SF (PrimFloat.mul (compress 255) (gain b))))
    by (intros b; apply gained_fin; lia).
  constructor; [|constructor; [|constructor; [|constructor]]];
    (split; [now apply nonneg_number_fin|]).
  - change 120%float with (PrimFloat.mul (compress 255) (gain Bass)).
    apply leb_value; auto.
  - change 170%float with (PrimFloat.mul (compress 255) (gain Mid)).
    apply leb_value; auto.
  - change 0x1.b800000000001p+7%float with (PrimFloat.mul (compress 255) (gain Treble)).
    apply leb_value; auto.
Qed.

Lemma zero_mul (s : float) : fin (Prim2SF s) -> PrimFloat.mul 0 s = 0%float.
Proof.
  intros Hs. apply Prim2SF_inj. rewrite mul_spec. unfold SF64mul.
  change (Prim2SF 0) with (S754_zero false).
  destruct (Prim2SF s) as [[|]|[|]| |[|] m e]; cbn [fin] in Hs; try contradiction;
    reflexivity.
Qed.

(** X4.  A band without signal: when no bin of the band's range is above
    0 (an array too short to reach the range included) and the band's
    running max is a finite number that is not negative, the frame emits
    the floor value 5 for the band and leaves its running max
    unchanged. *)
Theorem silent_band (snapshot : list byte) (rb rm rt : float) (b : band) :
  getMaxForRange snapshot (first_bin b) (end_bin b) = 0%Z ->
  nonneg_number (nth (position b) [rb; rm; rt] PrimFloat.nan) = true ->
  nth (position b) (fst (frame snapshot [rb; rm; rt])) PrimFloat.nan = 5%float
  /\ nth (position b) (snd (frame snapshot [rb; rm; rt])) PrimFloat.nan
     = nth (position b) [rb; rm; rt] PrimFloat.nan.
Proof.
  intros Hraw Hr. rewrite getMaxForRange_raw_max in Hraw.
  apply nonneg_number_fin in Hr. rewrite frame_by_band. cbn [fst snd].
  replace (nth (position b)
             [output snapshot Bass rb; output snapshot Mid rm;
              output snapshot Treble rt] PrimFloat.nan)
    with (output snapshot b (nth (position b) [rb; rm; rt] PrimFloat.nan))
    by (destruct b; reflexivity).
  replace (nth (position b)
             [running_max' snapshot Bass rb; running_max' snapshot Mid rm;
              running_max' snapshot Treble rt] PrimFloat.nan)
    with (running_max' snapshot b (nth (position b) [rb; rm; rt] PrimFloat.nan))
    by (destruct b; reflexivity).
  set (r := nth (position b) [rb; rm; rt] PrimFloat.nan) in *.
  assert (Hv : compressed_gained snapshot b = 0%float).
  { unfold compressed_gained. rewrite Hraw. destruct b; vm_compute; reflexivity. }
  assert (Hkeep : running_max' snapshot b r = r).
  { unfold running_max'. rewrite Hv.
    apply smoothed_values; [exact Hr|exact I|]. apply value_nonneg. }
  split; [|exact Hkeep].
  unfold output. rewrite Hkeep, Hv.
  cbn [JS.mul JS.float_number]. rewrite zero_mul by now apply de_gain_fin.
  vm_compute. reflexivity.
Qed.

Lemma silent_band_witness :
  nth (position Treble) (fst (frame [xff; x80] [6; 0; 2]%float)) PrimFloat.nan
  = 5%float
  /\ nth (position Treble) (snd (frame [xff; x80] [6; 0; 2]%float)) PrimFloat.nan
     = nth (position Treble) [6; 0; 2]%float PrimFloat.nan.
Proof.
  apply (silent_band [xff; x80] 6 0 2 Treble); reflexivity.
Defined.

End Running.

End VisualizerFacts.

(* ================================================================== *)
(** * Properties of the recorder *)
(* ================================================================== *)

Module RecorderFacts.

Import Recorder.

Section Runtime.

Variable isTypeSupported : string -> bool.
Variable defaultMimeType : string.

Local Abbreviation run := (Recorder.run isTypeSupported defaultMimeType).
Local Abbreviation handle := (Recorder.handle isTypeSupported defaultMimeType).
Local Abbreviation startRecording := (Recorder.startRecording isTypeSupported defaultMimeType).
Local Abbreviation negotiated := (Recorder.negotiated isTypeSupported defaultMimeType).

Lemma pickFormat_find (candidates : list string) (mimeType : string) :
  pickFormat isTypeSupported candidates mimeType
  = match find isTypeSupported candidates with
    | Some format => format
    | None => mimeType
    end.
Proof.
  induction candidates as [|format rest IH]; simpl; [reflexivity|].
  now destruct (isTypeSupported format).
Qed.

Lemma formats_truthy : Forall (fun format => truthy format = true) formats.
Proof. repeat constructor. Qed.

(** The recorder that [startRecording] builds reports the negotiated
    type, records, and was started with a one second time slice. *)
Lemma startRecording_recorder (c : component) :
  mediaRecorderRef (startRecording true c)
  = Some {| mimeType := negotiated; state := recording; timeslice := Some 1000%nat |}.
Proof.
  unfold Recorder.startRecording, Recorder.negotiated.
  cbn [mediaRecorderRef]. rewrite pickFormat_find.
  destruct (find isTypeSupported formats) as [format|] eqn:Hfind.
  - apply find_some in Hfind. destruct Hfind as [Hin _].
    pose proof formats_truthy as Hall. rewrite Forall_forall in Hall.
    now rewrite (Hall _ Hin).
  - reflexivity.
Qed.

(** While the interval is set, fragments and timer ticks only touch the
    chunk list and the counter. *)
Lemma run_deliveries (during : list event) (c : component) :
  Forall (fun e => is_delivery e = true) during ->
  timerRef c = true ->
  run during c
  = {| isRecording := isRecording c;
       recordingTime := recordingTime c + Z.of_nat (List.length (filter is_tick during));
       isStreaming := isStreaming c;
       mediaRecorderRef := mediaRecorderRef c;
       chunksRef := chunksRef c ++ kept during;
       timerRef := timerRef c;
       streamRef := streamRef c;
       completed := completed c |}.
Proof.
  intros Hall; revert c.
  induction Hall as [|e rest He _ IH]; intros c Htimer.
  - cbn. rewrite Z.add_0_r, app_nil_r. now destruct c.
  - destruct e; try discriminate He; cbn [Recorder.run fold_left Recorder.handle].
    + change (fold_left handle rest (ondataavailable data c))
        with (run rest (ondataavailable data c)).
      unfold ondataavailable. cbn [kept filter is_tick].
      destruct (0 <? size data)%nat.
      * rewrite IH by exact Htimer. cbn. now rewrite <- app_assoc.
      * now rewrite IH by exact Htimer.
    + change (fold_left handle rest (tick c)) with (run rest (tick c)).
      unfold tick. rewrite Htimer. rewrite IH by reflexivity.
      cbn [kept filter is_tick List.length isRecording recordingTime isStreaming
           mediaRecorderRef chunksRef timerRef streamRef completed].
      f_equal. lia.
Qed.

Lemma kept_app (l1 l2 : list event) : kept (l1 ++ l2) = kept l1 ++ kept l2.
Proof.
  induction l1 as [|e l1 IH]; [reflexivity|].
  destruct e; cbn [kept app]; auto.
  destruct (0 <? size data)%nat; cbn [app]; now rewrite IH.
Qed.

Lemma session_result (during : list event) (last : Blob) :
  Forall (fun e => is_delivery e = true) during ->
  let c := run (session during last) mount in
  recordingTime c = Z.of_nat (List.length (filter is_tick during))
  /\ chunksRef c = kept (during ++ [DataAvailable last])
  /\ completed c = [newBlob (chunksRef c) negotiated]
  /\ isRecording c = false.
Proof.
  intros Hall. unfold session.
  cbn [Recorder.run fold_left Recorder.handle].
  change (fold_left handle (during ++ [StopClicked; DataAvailable last; RecorderStopped])
            (startRecording true mount))
    with (run (during ++ [StopClicked; DataAvailable last; RecorderStopped])
              (startRecording true mount)).
  unfold Recorder.run. rewrite fold_left_app.
  fold (run during (startRecording true mount)).
  rewrite (run_deliveries during _ Hall) by reflexivity.
  rewrite startRecording_recorder.
  rewrite kept_app. cbn [kept].
  cbn -[Z.of_nat Z.add newBlob Nat.ltb]. unfold ondataavailable.
  destruct (0 <? size last)%nat; cbn -[Z.of_nat Z.add newBlob];
    rewrite ?app_nil_r; auto.
Qed.

(** C2 (amended).  The recorder is built with the first candidate of the
    fixed list that the runtime supports, or without options when it
    supports none.  For [startCapture()], three timer ticks among the
    fragments the recorder delivers, then [stopCapture()]: the counter
    reads 3; the chunks are exactly the non-empty fragments delivered, so
    there are at least 3 of them when at least 3 non-empty fragments came
    before the stop; and the artifact is the blob of these chunks, typed
    with the negotiated mime type. *)
Theorem capture_three_ticks (during : list event) (last : Blob) :
  Forall (fun e => is_delivery e = true) during ->
  List.length (filter is_tick during) = 3%nat ->
  let c := run (session during last) mount in
  mediaRecorderRef (startRecording true mount)
  = Some {| mimeType := negotiated; state := recording; timeslice := Some 1000%nat |}
  /\ recordingTime c = 3%Z
  /\ chunksRef c = kept (during ++ [DataAvailable last])
  /\ (3 <= List.length (kept during) -> 3 <= List.length (chunksRef c))%nat
  /\ completed c = [newBlob (chunksRef c) negotiated]
  /\ Forall (fun artifact => blob_type artifact = negotiated) (completed c).
Proof.
  intros Hall Hticks c.
  destruct (session_result during last Hall) as (Htime & Hchunks & Hdone & _).
  fold c in Htime, Hchunks, Hdone.
  split; [apply startRecording_recorder|].
  split; [rewrite Htime, Hticks; reflexivity|].
  split; [exact Hchunks|].
  split.
  - intros Hkept. rewrite Hchunks, kept_app, length_app. lia.
  - split; [exact Hdone|]. rewrite Hdone. repeat constructor.
Qed.

(** ** Any sequence of events *)

Lemma run_app (l1 l2 : list event) (c : component) :
  run (l1 ++ l2) c = run l2 (run l1 c).
Proof. unfold Recorder.run. apply fold_left_app. Qed.

(** An invariant of [handle] holds after every run from the mount. *)
Lemma run_invariant (P : component -> Prop) :
  P mount ->
  (forall c e, P c -> P (handle c e)) ->
  forall events, P (run events mount).
Proof.
  intros Hmount Hstep events.
  induction events as [|e events IH] using rev_ind; [exact Hmount|].
  rewrite run_app. cbn [Recorder.run fold_left]. now apply Hstep.
Qed.

(** X6.  Whatever happens to the recorder, in whatever order, no chunk
    it holds is empty. *)
Theorem chunks_never_empty (events : list event) :
  Forall (fun chunk => (0 < size chunk)%nat) (chunksRef (run events mount)).
Proof.
  apply (run_invariant
           (fun c => Forall (fun chunk => (0 < size chunk)%nat) (chunksRef c))).
  - constructor.
  - intros c [granted|data| | | ] H; cbn [Recorder.handle].
    + unfold Recorder.startRecording. destruct granted; [constructor | exact H].
    + unfold ondataavailable.
      destruct (Nat.ltb_spec 0 (size data)); [|exact H].
      cbn [chunksRef]. apply Forall_app. split; [exact H|].
      now constructor.
    + unfold tick. now destruct (timerRef c).
    + unfold stopRecording.
      destruct (mediaRecorderRef c); [|exact H]. now destruct (isRecording c).
    + unfold onstop. now destruct (mediaRecorderRef c).
Qed.

(** *** Sessions *)

Lemma empty_fragment (data : Blob) :
  (0 <? size data)%nat = false -> blob_data data = [].
Proof.
  unfold size. destruct (blob_data data); [reflexivity | discriminate].
Qed.

Lemma kept_bytes (events : list event) :
  List.concat (map blob_data (kept events))
  = List.concat (map blob_data (fragments events)).
Proof.
  induction events as [|e rest IH]; [reflexivity|].
  destruct e; cbn [kept fragments]; auto.
  destruct (0 <? size data)%nat eqn:Hsize; cbn [map List.concat].
  - now rewrite IH.
  - now rewrite (empty_fragment data Hsize), IH.
Qed.

Lemma session_from (c0 : component) (during : list event) (last : Blob) :
  Forall (fun e => is_delivery e = true) during ->
  let c := run (session during last) c0 in
  recordingTime c = Z.of_nat (List.length (filter is_tick during))
  /\ chunksRef c = kept (during ++ [DataAvailable last])
  /\ completed c = completed c0 ++ [newBlob (chunksRef c) negotiated]
  /\ isRecording c = false.
Proof.
  intros Hall. unfold session.
  cbn [Recorder.run fold_left Recorder.handle].
  change (fold_left handle (during ++ [StopClicked; DataAvailable last; RecorderStopped])
            (startRecording true c0))
    with (run (during ++ [StopClicked; DataAvailable last; RecorderStopped])
              (startRecording true c0)).
  rewrite run_app.
  rewrite (run_deliveries during _ Hall) by reflexivity.
  rewrite startRecording_recorder.
  rewrite kept_app. cbn [kept].
  cbn -[Z.of_nat Z.add newBlob Nat.ltb]. unfold ondataavailable.
  destruct (0 <? size last)%nat; cbn -[Z.of_nat Z.add newBlob];
    rewrite ?app_nil_r; auto.
Qed.

(** X8.  The artifact of a capture session holds, in order, the bytes of
    every fragment the recorder delivered, the flush at the stop
    included: dropping the empty fragments loses nothing. *)
Theorem artifact_holds_every_byte (during : list event) (last : Blob) :
  Forall (fun e => is_delivery e = true) during ->
  map blob_data (completed (run (session during last) mount))
  = [List.concat (map blob_data (fragments during)) ++ blob_data last].
Proof.
  intros Hall.
  destruct (session_from mount during last Hall) as (_ & Hchunks & Hdone & _).
  rewrite Hdone, Hchunks. cbn [completed mount app map newBlob blob_data].
  rewrite kept_bytes.
  assert (Hfrag : forall l1 l2, fragments (l1 ++ l2) = fragments l1 ++ fragments l2).
  { intros l1 l2. induction l1 as [|e l1 IH]; [reflexivity|].
    destruct e; cbn [fragments app]; now rewrite ?IH. }
  rewrite Hfrag, map_app, concat_app. cbn. now rewrite app_nil_r.
Qed.

(** X9.  A capture session that starts in any state, after earlier
    recordings for instance, begins from scratch: at its end the counter
    is the number of its own ticks, the chunks are its own non-empty
    fragments, and exactly one artifact, made of these chunks with the
    negotiated type, has been added after the earlier ones. *)
Theorem session_starts_afresh
        (earlier during : list event) (last : Blob) :
  Forall (fun e => is_delivery e = true) during ->
  let before := run earlier mount in
  let c := run (earlier ++ session during last) mount in
  recordingTime c = Z.of_nat (List.length (filter is_tick during))
  /\ chunksRef c = kept (during ++ [DataAvailable last])
  /\ completed c
     = completed before
       ++ [newBlob (kept (during ++ [DataAvailable last])) negotiated].
Proof.
  intros Hall before c. unfold c. rewrite run_app. fold before.
  destruct (session_from before during last Hall) as (Htime & Hchunks & Hdone & _).
  split; [exact Htime|]. split; [exact Hchunks|].
  rewrite Hdone, Hchunks. reflexivity.
Qed.

End Runtime.

Lemma capture_three_ticks_witness :
  let supported := String.eqb "audio/ogg" in
  let during :=
    [DataAvailable one_second; TimerFired; DataAvailable one_second; TimerFired;
     DataAvailable one_second; TimerFired] in
  let c := Recorder.run supported "" (session during one_second) mount in
  mediaRecorderRef (Recorder.startRecording supported "" true mount)
  = Some {| mimeType := Recorder.negotiated supported "";
            state := recording; timeslice := Some 1000%nat |}
  /\ recordingTime c = 3%Z
  /\ chunksRef c = kept (during ++ [DataAvailable one_second])
  /\ (3 <= List.length (kept during) -> 3 <= List.length (chunksRef c))%nat
  /\ completed c = [newBlob (chunksRef c) (Recorder.negotiated supported "")]
  /\ Forall (fun artifact => blob_type artifact = Recorder.negotiated supported "")
            (completed c).
Proof.
  apply (capture_three_ticks (String.eqb "audio/ogg") ""
           [DataAvailable one_second; TimerFired; DataAvailable one_second;
            TimerFired; DataAvailable one_second; TimerFired] one_second).
  - repeat constructor.
  - reflexivity.
Defined.

(** C2, as stated, fails on the chunk count.  Three ticks elapse in both
    runs.  In the first the recorder delivers a fragment every second but
    they are empty, and the handler drops them; in the second the
    recorder delivers nothing before the flush at the stop.  The counter
    reads 3 and the artifact has the first supported type, with no chunk
    in one run and a single chunk in the other. *)
Lemma capture_counterexample :
  let supported := fun _ : string => true in
  let silent :=
    Recorder.run supported ""
      (session [DataAvailable nothing; TimerFired; DataAvailable nothing;
                TimerFired; DataAvailable nothing; TimerFired] nothing) mount in
  let late :=
    Recorder.run supported ""
      (session [TimerFired; TimerFired; TimerFired] one_second) mount in
  (recordingTime silent = 3%Z /\ List.length (chunksRef silent) = 0%nat
   /\ completed silent = [{| blob_data := []; blob_type := "audio/webm" |}])
  /\ (recordingTime late = 3%Z /\ List.length (chunksRef late) = 1%nat
      /\ completed late
         = [{| blob_data := [x1a; x45; xdf; xa3]; blob_type := "audio/webm" |}]).
Proof. vm_compute. repeat split. Qed.

Lemma artifact_holds_every_byte_witness :
  map blob_data
      (completed
         (Recorder.run (fun _ => true) ""
            (session [DataAvailable one_second; TimerFired; DataAvailable nothing]
                     one_second) mount))
  = [List.concat
       (map blob_data
            (fragments [DataAvailable one_second; TimerFired; DataAvailable nothing]))
     ++ blob_data one_second].
Proof.
  apply (artifact_holds_every_byte (fun _ => true) ""
           [DataAvailable one_second; TimerFired; DataAvailable nothing]
           one_second).
  repeat constructor.
Defined.

Lemma session_starts_afresh_witness :
  let earlier := session [DataAvailable one_second; TimerFired] nothing in
  let during := [TimerFired; DataAvailable one_second; TimerFired] in
  let before := Recorder.run (fun _ => true) "" earlier mount in
  let c := Recorder.run (fun _ => true) "" (earlier ++ session during one_second) mount in
  recordingTime c = Z.of_nat (List.length (filter is_tick during))
  /\ chunksRef c = kept (during ++ [DataAvailable one_second])
  /\ completed c
     = completed before
       ++ [newBlob (kept (during ++ [DataAvailable one_second]))
                   (Recorder.negotiated (fun _ => true) "")].
Proof.
  apply (session_starts_afresh (fun _ => true) ""
           (session [DataAvailable one_second; TimerFired] nothing)
           [TimerFired; DataAvailable one_second; TimerFired] one_second).
  repeat constructor.
Defined.

(** ** The label of the counter *)

Import DecimalString.

Lemma of_uint_nonneg (d : Decimal.uint) : (0 <= Z.of_uint d)%Z.
Proof. unfold Z.of_uint. lia. Qed.

(** The digits of a counter that is not negative. *)
Lemma nonneg_digits (z : Z) :
  (0 <= z)%Z ->
  exists d, toString z = NilEmpty.string_of_uint d /\ Z.of_uint d = z.
Proof.
  intros Hz. unfold toString.
  pose proof (DecimalZ.of_to z) as Hback.
  destruct (Z.to_int z) as [d|d] eqn:E; cbn in Hback.
  - now exists d.
  - pose proof (of_uint_nonneg d). assert (Hz0 : z = 0%Z) by lia.
    rewrite Hz0 in E. discriminate E.
Qed.

(** Padding digits to two places gives digits of the same number. *)
Lemma padded_digits (d : Decimal.uint) :
  exists d', padStart 2 "0" (NilEmpty.string_of_uint d) = NilEmpty.string_of_uint d'
             /\ Z.of_uint d' = Z.of_uint d.
Proof.
  unfold padStart.
  destruct (String.length (NilEmpty.string_of_uint d)) as [|[|n]] eqn:L; cbn.
  - exists (Decimal.D0 (Decimal.D0 d)). now split.
  - exists (Decimal.D0 d). now split.
  - now exists d.
Qed.

Lemma split_digits (d : Decimal.uint) :
  Transcribe.split ":" (NilEmpty.string_of_uint d) = [NilEmpty.string_of_uint d].
Proof. induction d; cbn; rewrite ?IHd; reflexivity. Qed.

Lemma split_digits_colon (d : Decimal.uint) (rest : string) :
  Transcribe.split ":" (String.append (NilEmpty.string_of_uint d) (String ":" rest))
  = NilEmpty.string_of_uint d :: Transcribe.split ":" rest.
Proof. induction d; cbn; rewrite ?IHd; reflexivity. Qed.

(** The label read back: minutes and seconds around the colon. *)
Lemma formatTime_read_back (seconds : Z) :
  (0 <= seconds)%Z ->
  match Transcribe.split ":" (formatTime seconds) with
  | [minutes; rest] =>
      match NilEmpty.uint_of_string minutes, NilEmpty.uint_of_string rest with
      | Some m, Some r => Some (Z.of_uint m * 60 + Z.of_uint r)%Z
      | _, _ => None
      end
  | _ => None
  end = Some seconds.
Proof.
  intros Hs. unfold formatTime.
  assert (Hm : (0 <= seconds / 60)%Z) by (apply Z.div_pos; lia).
  assert (Hq : (0 <= Z.rem seconds 60)%Z) by (apply Z.rem_nonneg; lia).
  destruct (nonneg_digits _ Hm) as (dm & -> & Em).
  destruct (nonneg_digits _ Hq) as (dq & -> & Eq).
  destruct (padded_digits dm) as (dm' & -> & Em').
  destruct (padded_digits dq) as (dq' & -> & Eq').
  cbn [String.append]. rewrite split_digits_colon, split_digits.
  rewrite !NilEmpty.usu. f_equal.
  rewrite Em', Eq', Em, Eq.
  rewrite Z.rem_mod_nonneg by lia.
  pose proof (Z.div_mod seconds 60). lia.
Qed.

(** X10.  Counters that differ are shown differently: for counters that
    are not negative, [formatTime] maps different numbers of seconds to
    different labels, however long the recording. *)
Theorem formatTime_distinct (a b : Z) :
  (0 <= a)%Z -> (0 <= b)%Z -> a <> b -> formatTime a <> formatTime b.
Proof.
  intros Ha Hb Hne Heq.
  pose proof (formatTime_read_back a Ha) as Ra.
  pose proof (formatTime_read_back b Hb) as Rb.
  rewrite Heq, Rb in Ra. injection Ra as Hba. apply Hne. now symmetry.
Qed.

Lemma formatTime_distinct_witness : formatTime 59 <> formatTime 60.
Proof. apply (formatTime_distinct 59 60); lia. Defined.

(** X11.  Below 100 minutes the label is five characters, two digits of
    minutes and two of seconds around a colon. *)
Theorem formatTime_five_characters (seconds : Z) :
  (0 <= seconds < 6000)%Z ->
  String.length (formatTime seconds) = 5%nat
  /\ String.get 2 (formatTime seconds) = Some ":"%char
  /\ formatTime seconds
     = String.append (padStart 2 "0" (toString (seconds / 60)))
         (String.append ":" (padStart 2 "0" (toString (seconds mod 60)))).
Proof.
  intros Hs.
  assert (Hall :
    forallb (fun n =>
               let label := formatTime (Z.of_nat n) in
               Nat.eqb (String.length label) 5
               && match String.get 2 label with
                  | Some c => Ascii.eqb c ":"
                  | None => false
                  end)
            (seq 0 (Z.to_nat 6000)) = true) by (vm_compute; reflexivity).
  rewrite forallb_forall in Hall.
  specialize (Hall (Z.to_nat seconds)).
  rewrite Z2Nat.id in Hall by lia. cbn zeta in Hall.
  destruct (andb_prop _ _ (Hall ltac:(apply in_seq; lia))) as [Hlen Hcolon].
  split; [now apply Nat.eqb_eq|]. split.
  - destruct (String.get 2 (formatTime seconds)) as [c|]; [|discriminate].
    now apply Ascii.eqb_eq in Hcolon; subst.
  - unfold formatTime. now rewrite Z.rem_mod_nonneg by lia.
Qed.

Lemma formatTime_five_characters_witness :
  String.length (formatTime 65) = 5%nat
  /\ String.get 2 (formatTime 65) = Some ":"%char
  /\ formatTime 65
     = String.append (padStart 2 "0" (toString (65 / 60)))
         (String.append ":" (padStart 2 "0" (toString (65 mod 60)))).
Proof. apply (formatTime_five_characters 65). lia. Defined.

End RecorderFacts.

(* ================================================================== *)
(** * Properties of the transcription action *)
(* ================================================================== *)

Module TranscribeFacts.

Import Transcribe.

Local Open Scope string_scope.

Section Gateway.

Variable Segment : Type.
Variable transcribe : Request -> completion (Transcription Segment).
Variable toLowerCase : string -> string.

Local Abbreviation transcribeAudio := (Transcribe.transcribeAudio transcribe toLowerCase).
Local Abbreviation file_request := (Transcribe.file_request toLowerCase).

Lemma flag_not_true (flag : option string) :
  flag <> Some "true" ->
  match flag with Some f => String.eqb f "true" | None => false end = false.
Proof.
  intros H. destruct flag as [f|]; [|reflexivity].
  destruct (String.eqb_spec f "true"); [subst; now elim H | reflexivity].
Qed.

(** The action never lets an error escape: the outer [catch] turns it
    into a failure value. *)
Lemma transcribeAudio_returns (formData : FormData) (calls : list Request) :
  exists response calls',
    transcribeAudio formData calls = (Normal response, calls').
Proof.
  unfold Transcribe.transcribeAudio, try_catch.
  match goal with
  | |- context [match ?body calls with _ => _ end] => destruct (body calls) as [[r|m] l]
  end; unfold ret; eauto.
Qed.

(** C6 (amended).  With a real payload whose transcription the provider
    fails, the action calls the provider once more, for the fixed test
    audio.  If that call succeeds the action returns a success whose text
    is the transcript of the test audio followed by the note; if it
    fails too, the action returns the failure value built from its
    error. *)
Theorem fallback_after_rejection
        (file : File) (flag : option string) (fileError : string) :
  flag <> Some "true" ->
  transcribe (file_request file) = Throw fileError ->
  let formData := {| audio := Some file; useTestAudio := flag |} in
  snd (transcribeAudio formData [])
  = [file_request file; test_request (name file)]
  /\ (forall result,
        transcribe (test_request (name file)) = Normal result ->
        fst (transcribeAudio formData []) = Normal (annotated result)
        /\ ends_with (text result ++ NOTE) NOTE)
  /\ (forall error,
        transcribe (test_request (name file)) = Throw error ->
        fst (transcribeAudio formData [])
        = Normal (Failure ("Failed to transcribe audio: " ++ error))).
Proof.
  intros Hflag Hfile formData.
  unfold Transcribe.transcribeAudio, formData. cbn [audio useTestAudio].
  rewrite (flag_not_true flag Hflag).
  unfold try_catch, bind, call, name_of, ret. cbn [app].
  rewrite Hfile.
  destruct (transcribe (test_request (name file))) as [result|error] eqn:Htest;
    cbn [fst snd]; (split; [reflexivity|]); split.
  - intros result' Heq. injection Heq as <-. split; [reflexivity|].
    now exists (text result).
  - intros error Heq. discriminate Heq.
  - intros result Heq. discriminate Heq.
  - intros error' Heq. now injection Heq as <-.
Qed.

(** C9, on the code.  A form that only carries [useTestAudio = "true"]
    passes the guard, and the branch for the test audio then reads
    [audioFile.name] of [null] while it builds its request: the provider
    is not called and the action returns the failure value of the outer
    [catch]. *)
Theorem flag_only_fails :
  transcribeAudio {| audio := None; useTestAudio := Some "true" |} []
  = (Normal (Failure ("Failed to transcribe audio: " ++ null_name_message)), []).
Proof. reflexivity. Qed.

(** With the flag and a file, the test audio is transcribed. *)
Lemma flag_with_file (file : File) (result : Transcription Segment) :
  transcribe (test_request (name file)) = Normal result ->
  transcribeAudio {| audio := Some file; useTestAudio := Some "true" |} []
  = (Normal (annotated result), [test_request (name file)]).
Proof.
  intros H. unfold Transcribe.transcribeAudio, try_catch, bind, call, name_of, ret.
  cbn. now rewrite H.
Qed.

(** ** The calls the action makes *)

(** X12.  The action never rejects: whatever the form and whatever the
    provider does, it resolves to a response, after at most two provider
    calls: none, the test audio alone, the file alone, or the file
    followed by the test audio. *)
Theorem action_always_resolves (formData : FormData) :
  exists response calls,
    transcribeAudio formData [] = (Normal response, calls)
    /\ (calls = []
        \/ (exists file, audio formData = Some file
                         /\ calls = [test_request (name file)])
        \/ (exists file, audio formData = Some file
                         /\ (calls = [file_request file]
                             \/ calls = [file_request file;
                                         test_request (name file)]))).
Proof.
  unfold Transcribe.transcribeAudio, try_catch, bind, call, name_of, ret, throw.
  destruct formData as [[file|] flag]; cbn [audio useTestAudio];
    destruct (match flag with Some f => String.eqb f "true" | None => false end);
    cbn [app].
  - destruct (transcribe (test_request (name file))); do 2 eexists;
      (split; [reflexivity|]); right; left; exists file; now split.
  - destruct (transcribe (file_request file)).
    + do 2 eexists. split; [reflexivity|].
      right; right. exists file. split; [reflexivity | now left].
    + destruct (transcribe (test_request (name file))); do 2 eexists;
        (split; [reflexivity|]); right; right; exists file;
        (split; [reflexivity | now right]).
  - do 2 eexists. split; [reflexivity | now left].
  - do 2 eexists. split; [reflexivity | now left].
Qed.

(** X13.  With [useTestAudio = "true"] and a file, the bytes of the file
    are not sent anywhere: the only provider call is for the fixed test
    URL, and the response is the annotated transcript of that call or the
    failure built from its error. *)
Theorem flagged_file_is_not_sent (file : File) :
  let formData := {| audio := Some file; useTestAudio := Some "true" |} in
  snd (transcribeAudio formData [])
  = [{| req_audio := FromURL TEST_MP3_URL; req_language := "en";
        req_fileName := name file |}]
  /\ fst (transcribeAudio formData [])
     = match transcribe (test_request (name file)) with
       | Normal result => Normal (annotated result)
       | Throw error => Normal (Failure ("Failed to transcribe audio: " ++ error))
       end.
Proof.
  cbn zeta.
  unfold Transcribe.transcribeAudio, try_catch, bind, call, name_of, ret.
  cbn [audio useTestAudio String.eqb Ascii.eqb Bool.eqb app].
  now destruct (transcribe (test_request (name file))).
Qed.

(** X14.  When the provider transcribes the payload, the action makes
    that one call, carrying the bytes of the file, and hands back the
    provider's text, duration, segments and language as they are, with
    no note. *)
Theorem accepted_payload_passes_through
        (file : File) (flag : option string) (result : Transcription Segment) :
  flag <> Some "true" ->
  transcribe (file_request file) = Normal result ->
  transcribeAudio {| audio := Some file; useTestAudio := flag |} []
  = (Normal (Success result), [file_request file])
  /\ req_audio (file_request file)
     = FromBuffer (bytes file) ("audio." ++ fileExtension toLowerCase file).
Proof.
  intros Hflag Hfile. split; [|reflexivity].
  unfold Transcribe.transcribeAudio. cbn [audio useTestAudio].
  rewrite (flag_not_true flag Hflag).
  unfold try_catch, bind, call, ret. cbn [app]. rewrite Hfile.
  unfold plain. now destruct result.
Qed.

(** X15.  A transcript of the test audio is never passed off as the
    user's: whenever the action succeeds and the test audio was
    requested, the text returned ends with the note. *)
Theorem test_transcript_is_marked
        (formData : FormData) (result : Transcription Segment) (request : Request) :
  fst (transcribeAudio formData []) = Normal (Success result) ->
  In request (snd (transcribeAudio formData [])) ->
  req_audio request = FromURL TEST_MP3_URL ->
  ends_with (text result) NOTE.
Proof.
  unfold Transcribe.transcribeAudio, try_catch, bind, call, name_of, ret, throw.
  destruct formData as [[file|] flag]; cbn [audio useTestAudio];
    destruct (match flag with Some f => String.eqb f "true" | None => false end);
    cbn [app].
  - destruct (transcribe (test_request (name file))) as [r|e]; cbn [fst snd];
      intros Hok _ _; [|discriminate Hok].
    injection Hok as <-. now exists (text r).
  - destruct (transcribe (file_request file)) as [r|e]; cbn [fst snd].
    + intros _ [<-|[]] Hurl. discriminate Hurl.
    + destruct (transcribe (test_request (name file))) as [r|e']; cbn [fst snd];
        intros Hok _ _; [|discriminate Hok].
      injection Hok as <-. now exists (text r).
  - cbn [fst snd]. intros _ [].
  - cbn [fst snd]. intros _ [].
Qed.

(** X16.  Without a file, a flag that is missing or is anything but the
    exact string "true" ("True", "1", the empty string) is no flag: the
    action answers that no audio file was provided and calls nobody. *)
Theorem missing_payload_is_refused (flag : option string) :
  flag <> Some "true" ->
  transcribeAudio {| audio := None; useTestAudio := flag |} []
  = (Normal (Failure "No audio file provided"), []).
Proof.
  intros Hflag. unfold Transcribe.transcribeAudio. cbn [audio useTestAudio].
  now rewrite (flag_not_true flag Hflag).
Qed.

(** ** The extension of the buffer *)

Lemma includes_dot (c : ascii) (rest : string) :
  includes (String c rest) "." = if Ascii.eqb c "." then true else includes rest ".".
Proof.
  cbn [includes String.prefix].
  destruct (Ascii.eqb_spec c "."%char) as [->|Hne].
  - destruct (ascii_dec "." "."); [|contradiction]. now destruct rest.
  - destruct (ascii_dec "." c) as [E|_]; [now elim Hne | reflexivity].
Qed.

Lemma split_not_nil (sep : ascii) (str : string) : split sep str <> [].
Proof.
  destruct str as [|c rest]; cbn; [discriminate|].
  destruct (Ascii.eqb c sep); [discriminate|].
  destruct (split sep rest); discriminate.
Qed.

(** The last part of a name split at its dots: the whole name when it
    has none, otherwise what follows its last dot. *)
Lemma last_part (str : string) :
  (includes str "." = false /\ last (split "." str) EmptyString = str)
  \/ (includes str "." = true
      /\ exists front ext,
           str = front ++ "." ++ ext
           /\ includes ext "." = false
           /\ last (split "." str) EmptyString = ext).
Proof.
  induction str as [|c rest IH].
  - left. now split.
  - rewrite includes_dot. cbn [split].
    destruct (Ascii.eqb_spec c "."%char) as [->|Hne].
    + right. split; [reflexivity|].
      destruct (split "." rest) as [|p ps] eqn:Hs; [now elim (split_not_nil "." rest)|].
      change (last (EmptyString :: p :: ps) EmptyString)
        with (last (p :: ps) EmptyString).
      destruct IH as [[Hno Hlast] | (Hyes & front & ext & -> & Hext & Hlast)].
      * exists EmptyString, rest. repeat split; auto.
      * exists (String "." front), ext. repeat split; auto.
    + destruct (split "." rest) as [|p ps] eqn:Hs; [now elim (split_not_nil "." rest)|].
      destruct IH as [[Hno Hlast] | (Hyes & front & ext & Hrest & Hext & Hlast)].
      * left. split; [exact Hno|].
        destruct ps as [|q qs].
        -- cbn in *. now subst.
        -- exfalso. clear - Hs Hno.
           revert p q qs Hs. induction rest as [|c' rest' IHr]; intros p q qs Hs.
           ++ discriminate Hs.
           ++ rewrite includes_dot in Hno. cbn [split] in Hs.
              destruct (Ascii.eqb c' "."); [discriminate Hno|].
              destruct (split "." rest') as [|p' ps'] eqn:Hs'; [discriminate Hs|].
              injection Hs as _ Hps. subst ps'.
              now apply (IHr Hno p' q qs).
      * right. split; [exact Hyes|].
        exists (String c front), ext. subst rest. repeat split; auto.
        destruct ps as [|q qs]; [|exact Hlast].
        exfalso. clear - Hs Hext.
        assert (Hlen : forall s, includes s "." = true ->
                                 (2 <= List.length (split "." s))%nat).
        { induction s as [|c' s' IHs]; [discriminate|].
          rewrite includes_dot. cbn [split].
          destruct (Ascii.eqb c' ".").
          - intros _. pose proof (split_not_nil "." s').
            destruct (split "." s'); [contradiction | cbn; lia].
          - intros H. specialize (IHs H).
            destruct (split "." s'); cbn in *; lia. }
        assert (Hinc : includes (front ++ "." ++ ext) "." = true).
        { clear. induction front as [|c' f IHf]; cbn [String.append];
            rewrite includes_dot; [reflexivity|].
          now destruct (Ascii.eqb c' "."). }
        specialize (Hlen _ Hinc). rewrite Hs in Hlen. cbn in Hlen. lia.
Qed.

(** X17.  The extension given to the buffer.  When the name of the file
    has a dot, it is what follows the last dot of the name, lower-cased,
    and so has no dot itself before lower-casing; when the name has no
    dot, the type decides between webm, mp3 and wav, and mp3 stands for
    everything else. *)
Theorem fileExtension_cases (file : File) :
  (includes (name file) "." = true ->
   exists front ext,
     name file = front ++ "." ++ ext
     /\ includes ext "." = false
     /\ fileExtension toLowerCase file = toLowerCase ext)
  /\ (includes (name file) "." = false ->
      fileExtension toLowerCase file
      = if includes (type file) "webm" then "webm"
        else if includes (type file) "mp3" then "mp3"
        else if includes (type file) "wav" then "wav"
        else "mp3").
Proof.
  unfold Transcribe.fileExtension. split; intros Hdot; rewrite Hdot.
  - assert (Hname : Recorder.truthy (name file) = true).
    { destruct (name file); [discriminate Hdot | reflexivity]. }
    rewrite Hname. cbn [andb].
    destruct (last_part (name file)) as [[Hno _] | (_ & front & ext & Hn & He & Hl)].
    + congruence.
    + exists front, ext. now rewrite Hl.
  - rewrite andb_false_r.
    destruct (Recorder.truthy (type file)) eqn:Htype; [reflexivity|].
    assert (Hempty : type file = EmptyString).
    { unfold Recorder.truthy in Htype. apply negb_false_iff in Htype.
      now apply String.eqb_eq in Htype. }
    now rewrite Hempty.
Qed.

End Gateway.

Lemma accepted_payload_passes_through_witness :
  transcribeAudio accepting (fun s => s)
    {| audio := Some recording; useTestAudio := None |} []
  = (Normal (Success sample_transcript), [file_request (fun s => s) recording])
  /\ req_audio (file_request (fun s => s) recording)
     = FromBuffer (bytes recording)
         ("audio." ++ fileExtension (fun s => s) recording).
Proof.
  apply (accepted_payload_passes_through unit accepting (fun s => s) recording None
           sample_transcript).
  - discriminate.
  - reflexivity.
Defined.

Lemma test_transcript_is_marked_witness :
  ends_with
    (text {| text := "Hello." ++ NOTE; durationInSeconds := 3%float;
             segments := @nil unit; language := "en" |})
    NOTE.
Proof.
  apply (test_transcript_is_marked unit url_only (fun s => s)
           {| audio := Some recording; useTestAudio := None |}
           {| text := "Hello." ++ NOTE; durationInSeconds := 3%float;
              segments := []; language := "en" |}
           (test_request (name recording))).
  - reflexivity.
  - right. left. reflexivity.
  - reflexivity.
Defined.

Lemma missing_payload_is_refused_witness :
  transcribeAudio accepting (fun s => s)
    {| audio := None; useTestAudio := Some "True" |} []
  = (Normal (Failure "No audio file provided"), []).
Proof.
  apply (missing_payload_is_refused unit accepting (fun s => s) (Some "True")).
  discriminate.
Defined.

Lemma fallback_after_rejection_witness :
  let formData := {| audio := Some recording; useTestAudio := None |} in
  snd (transcribeAudio url_only (fun s => s) formData [])
  = [file_request (fun s => s) recording; test_request (name recording)]
  /\ (forall result,
        url_only (test_request (name recording)) = Normal result ->
        fst (transcribeAudio url_only (fun s => s) formData [])
        = Normal (annotated result)
        /\ ends_with (text result ++ NOTE) NOTE)
  /\ (forall error,
        url_only (test_request (name recording)) = Throw error ->
        fst (transcribeAudio url_only (fun s => s) formData [])
        = Normal (Failure ("Failed to transcribe audio: " ++ error))).
Proof.
  apply (fallback_after_rejection unit url_only (fun s => s) recording None
           "Invalid file format.").
  - discriminate.
  - reflexivity.
Defined.

(** C6, as stated, fails.  The provider rejects the payload, and the
    test audio as well: the error of the second call is what the caller
    gets, after the two calls. *)
Lemma fallback_counterexample :
  unavailable (file_request (fun s => s) recording) = Throw "Unauthorized"
  /\ transcribeAudio unavailable (fun s => s)
       {| audio := Some recording; useTestAudio := None |} []
     = (Normal (Failure "Failed to transcribe audio: Unauthorized"),
        [file_request (fun s => s) recording; test_request "recording.webm"]).
Proof. split; reflexivity. Qed.

End TranscribeFacts.

(* ================================================================== *)
(** * Properties of the player *)
(* ================================================================== *)

Module PlayerFacts.

Import Player.

(** ** Comparisons of binary64 numbers *)

Lemma SFcompare_swap (x y : spec_float) :
  SFcompare y x = option_map CompOpp (SFcompare x y).
Proof.
  destruct x as [sx|sx| |sx mx ex], y as [sy|sy| |sy my ey]; cbn;
    try reflexivity;
    try (destruct sx; reflexivity); try (destruct sy; reflexivity);
    try (destruct sx, sy; reflexivity).
  change (PosDef.Pos.compare_cont Eq my mx) with (Pos.compare my mx).
  change (PosDef.Pos.compare_cont Eq mx my) with (Pos.compare mx my).
  rewrite (Z.compare_antisym ex ey), (Pos.compare_antisym mx my).
  destruct sx, sy; cbn; try reflexivity;
    destruct (ex ?= ey)%Z; cbn; try reflexivity;
    destruct (mx ?= my)%positive; reflexivity.
Qed.

(** [a < b] excludes [b <= a], and so [b === a]. *)
Lemma ltb_not_leb (a b : float) :
  PrimFloat.ltb a b = true -> PrimFloat.leb b a = false.
Proof.
  rewrite ltb_spec, leb_spec. unfold SFltb, SFleb.
  rewrite (SFcompare_swap (Prim2SF a) (Prim2SF b)).
  destruct (SFcompare (Prim2SF a) (Prim2SF b)) as [[ | | ]|]; cbn; congruence.
Qed.



(** ** Volume *)



(** ** Errors *)

(** What the error listener does to the cells: it clears [isReady] and
    [loading], and nothing else. *)
Lemma handleError_cells (c : component) :
  isReady (handleError c) = false
  /\ loading (handleError c) = false
  /\ readiness (handleError c) = Errored
  /\ isPlaying (handleError c) = isPlaying c.
Proof. repeat split. Qed.

(** The other ways playback comes to an end all clear [isPlaying]: the
    end of the audio, a refused [play()], and a new source. *)
Lemma playback_ends_elsewhere (audioUrl : string) (c : component) :
  isPlaying (handleEnded c) = false
  /\ isPlaying (playRejected c) = false
  /\ (Recorder.truthy audioUrl = true -> isPlaying (load audioUrl c) = false).
Proof.
  split; [reflexivity|]. split; [reflexivity|].
  intros H. unfold load. now rewrite H.
Qed.

(** C7, on the code.  Load, metadata with a duration of 3 seconds, play:
    the player is playing.  When the element then reports an error,
    readiness becomes Errored, and [isPlaying] is still true: the error
    listener does not clear it, where the end of the audio, a refused
    [play()] and a new source, from the same state, all do. *)
Theorem error_leaves_playing :
  let playing :=
    togglePlayPause
      (handleLoadedMetadata {| media_duration := 3%float; media_currentTime := 0%float |}
         (load "blob:recording" mount)) in
  isPlaying playing = true
  /\ readiness (handleError playing) = Errored
  /\ isPlaying (handleError playing) = true
  /\ isPlaying (handleEnded playing) = false
  /\ isPlaying (playRejected playing) = false
  /\ isPlaying (load "blob:next" playing) = false.
Proof. vm_compute. repeat split. Qed.

(** ** Readiness *)



(** No readiness signal clears [isReady]. *)
Lemma deliver_keeps_ready (c : component) (s : signal * media) :
  isReady c = true -> isReady (deliver c s) = true.
Proof.
  intros H. destruct s as [[ | | | ] audio]; cbn [deliver];
    unfold handleLoadedMetadata, handleLoadedData, handleCanPlay, handleTimeUpdate;
    match goal with |- context [if ?b then _ else _] => destruct b end;
    cbn; auto.
Qed.


(** A signal that does not qualify changes neither cell. *)
Lemma deliver_unqualified (c : component) (s : signal * media) :
  qualifies s = false ->
  isReady (deliver c s) = isReady c /\ duration (deliver c s) = duration c.
Proof.
  unfold qualifies, carries_duration.
  destruct s as [[ | | | ] audio]; cbn [deliver fst snd];
    unfold handleLoadedMetadata, handleLoadedData, handleCanPlay, handleTimeUpdate;
    rewrite ?andb_true_r, <- ?andb_assoc; intros H; rewrite ?H, ?andb_false_r;
    now cbn.
Qed.

(** A signal that qualifies is taken by listeners created before the
    player was ready. *)
Lemma deliver_qualified (c : component) (s : signal * media) :
  isReady_in_listeners c = false ->
  qualifies s = true ->
  isReady (deliver c s) = true
  /\ duration (deliver c s) = media_duration (snd s).
Proof.
  unfold qualifies, carries_duration. intros Hl.
  destruct s as [[ | | | ] audio]; cbn [deliver fst snd];
    unfold handleLoadedMetadata, handleLoadedData, handleCanPlay, handleTimeUpdate;
    rewrite ?Hl, ?andb_true_r, <- ?andb_assoc; cbn [negb andb];
    intros H; rewrite H; now cbn.
Qed.

(** Listeners created while the player was ready (a later load) leave
    both cells alone on the three fall-back signals, whatever these
    carry. *)
Lemma fallbacks_closed_after_ready (c : component) (s : signal * media) :
  isReady_in_listeners c = true ->
  fst s <> MetadataReady ->
  isReady (deliver c s) = isReady c /\ duration (deliver c s) = duration c.
Proof.
  intros Hl Hs.
  destruct s as [[ | | | ] audio]; cbn [deliver fst] in *;
    unfold handleLoadedData, handleCanPlay, handleTimeUpdate;
    rewrite ?Hl; cbn [negb andb]; now split.
Qed.

Lemma deliver_all_unqualified (signals : list (signal * media)) (c : component) :
  Forall (fun s => qualifies s = false) signals ->
  isReady (deliver_all signals c) = isReady c
  /\ duration (deliver_all signals c) = duration c.
Proof.
  intros Hall; revert c.
  induction Hall as [|s rest Hs _ IH]; intros c; [now split|].
  cbn [deliver_all fold_left]. fold (deliver_all rest (deliver c s)).
  destruct (IH (deliver c s)) as [-> ->]. now apply deliver_unqualified.
Qed.






(** The listener of position-advanced leaves the indicator as it is. *)
Lemma handleTimeUpdate_loading (audio : media) (c : component) :
  loading (handleTimeUpdate audio c) = loading c.
Proof.
  unfold handleTimeUpdate.
  match goal with |- context [if ?b then _ else _] => destruct b end; reflexivity.
Qed.




(** ** Transport controls *)

(** X18.  Muting twice gives the player back as it was, and muting never
    touches the stored volume, so unmuting restores it. *)
Theorem toggleMute_twice (c : component) :
  toggleMute (toggleMute c) = c
  /\ volume (toggleMute c) = volume c.
Proof.
  unfold toggleMute. destruct c as [p t d r l v m a il].
  destruct a; cbn; [|now split].
  now rewrite negb_involutive.
Qed.

(** X19.  Seeking to the same place twice is seeking once: a second
    click at the same fraction of the bar changes nothing. *)
Theorem seek_twice (x : float) (c : component) :
  handleProgressClick x (handleProgressClick x c) = handleProgressClick x c.
Proof.
  unfold handleProgressClick.
  destruct (negb (audioRef c) || negb (isReady c) || PrimFloat.leb (duration c) 0)
    eqn:Hguard.
  - now rewrite Hguard.
  - destruct (isFinite
                (PrimFloat.mul (JS.float_max 0 (JS.float_min 1 x)) (duration c)))
      eqn:Hfinite.
    + cbn [setCurrentTime audioRef isReady duration]. now rewrite Hguard, Hfinite.
    + now rewrite Hguard, Hfinite.
Qed.

Lemma deliver_duration_finite (c : component) (s : signal * media) :
  isFinite (duration c) = true -> isFinite (duration (deliver c s)) = true.
Proof.
  intros H. destruct s as [[ | | | ] audio]; cbn [deliver];
    unfold handleLoadedMetadata, handleLoadedData, handleCanPlay, handleTimeUpdate;
    match goal with |- context [if ?b then _ else _] => destruct b eqn:Hb end;
    cbn [duration setDuration setIsReady setLoading setCurrentTime]; auto;
    repeat (apply andb_prop in Hb; destruct Hb as [Hb ?]); auto.
Qed.

(** X20.  Whatever happens to the player, in whatever order, the
    duration it holds is a finite number: never NaN, never infinite. *)
Theorem duration_always_finite (events : list event) :
  isFinite (duration (steps events mount)) = true.
Proof.
  induction events as [|e events IH] using rev_ind; [reflexivity|].
  unfold steps in *. rewrite fold_left_app. cbn [fold_left].
  set (c := fold_left step events mount) in *.
  destruct e; cbn [step].
  - unfold load. now destruct (Recorder.truthy audioUrl).
  - destruct (audioRef c); [now apply deliver_duration_finite | exact IH].
  - now destruct (audioRef c).
  - now destruct (audioRef c).
  - now destruct (audioRef c).
  - unfold togglePlayPause. now destruct (negb (isReady c) || loading c).
  - unfold handleProgressClick.
    destruct (negb (audioRef c) || negb (isReady c) || PrimFloat.leb (duration c) 0);
      [exact IH|].
    match goal with |- context [if ?b then _ else _] => destruct b end; exact IH.
  - unfold toggleMute. now destruct (audioRef c).
  - unfold handleVolumeChange. now destruct (audioRef c).
Qed.

(** X21.  Playback only ever starts from the play button of a player
    that is ready and not loading: no other event, and no click before
    that, turns [isPlaying] on. *)
Theorem play_needs_ready (c : component) (e : event) :
  isPlaying c = false ->
  isPlaying (step c e) = true ->
  e = PlayPauseClicked /\ isReady c = true /\ loading c = false.
Proof.
  intros Hoff Hon. destruct e; cbn [step] in Hon.
  - unfold load in Hon. destruct (Recorder.truthy audioUrl); cbn in Hon; congruence.
  - destruct (audioRef c); [|congruence].
    destruct s; cbn [deliver] in Hon;
      unfold handleLoadedMetadata, handleLoadedData, handleCanPlay, handleTimeUpdate in Hon;
      match type of Hon with context [if ?b then _ else _] => destruct b end;
      cbn in Hon; congruence.
  - destruct (audioRef c); cbn in Hon; congruence.
  - destruct (audioRef c); cbn in Hon; congruence.
  - destruct (audioRef c); cbn in Hon; congruence.
  - unfold togglePlayPause in Hon.
    destruct (isReady c), (loading c); cbn in Hon; try congruence.
    now repeat split.
  - unfold handleProgressClick in Hon.
    destruct (negb (audioRef c) || negb (isReady c) || PrimFloat.leb (duration c) 0);
      [congruence|].
    match type of Hon with context [if ?b then _ else _] => destruct b end;
      cbn in Hon; congruence.
  - unfold toggleMute in Hon. destruct (audioRef c); cbn in Hon; congruence.
  - unfold handleVolumeChange in Hon. destruct (audioRef c); cbn in Hon; congruence.
Qed.

Lemma play_needs_ready_witness :
  PlayPauseClicked = PlayPauseClicked
  /\ isReady (deliver (load "blob:recording" mount) (CanStart, reports 3 0)) = true
  /\ loading (deliver (load "blob:recording" mount) (CanStart, reports 3 0)) = false.
Proof.
  apply (play_needs_ready
           (deliver (load "blob:recording" mount) (CanStart, reports 3 0))
           PlayPauseClicked); reflexivity.
Defined.

(** X22.  Volume and mute belong to the user: a new source, the
    element's signals, the end of the audio, an error, a refused play, the
    play button and a seek all leave both as they were; only the mute
    button and the volume control change them. *)
Theorem volume_survives (c : component) (e : event) :
  e <> MuteClicked ->
  (forall newVolume, e <> VolumeMoved newVolume) ->
  volume (step c e) = volume c /\ isMuted (step c e) = isMuted c.
Proof.
  intros Hmute Hvolume. destruct e; cbn [step].
  - unfold load. now destruct (Recorder.truthy audioUrl).
  - destruct (audioRef c); [|now split].
    destruct s; cbn [deliver];
      unfold handleLoadedMetadata, handleLoadedData, handleCanPlay, handleTimeUpdate;
      match goal with |- context [if ?b then _ else _] => destruct b end;
      now split.
  - now destruct (audioRef c).
  - now destruct (audioRef c).
  - now destruct (audioRef c).
  - unfold togglePlayPause. now destruct (negb (isReady c) || loading c).
  - unfold handleProgressClick.
    destruct (negb (audioRef c) || negb (isReady c) || PrimFloat.leb (duration c) 0);
      [now split|].
    match goal with |- context [if ?b then _ else _] => destruct b end; now split.
  - now elim Hmute.
  - now elim (Hvolume newVolume).
Qed.

Lemma volume_survives_witness :
  let c := handleVolumeChange 0x1p-2%float (load "blob:first" mount) in
  volume (step c (UrlChanged "blob:second")) = volume c
  /\ isMuted (step c (UrlChanged "blob:second")) = isMuted c.
Proof.
  apply (volume_survives
           (handleVolumeChange 0x1p-2%float (load "blob:first" mount))
           (UrlChanged "blob:second")); intros; discriminate.
Defined.

(** X23.  After a source is set, the play button stays without effect
    as long as no signal has brought a usable duration, whatever the
    player was doing before and however many such signals arrive. *)
Theorem no_play_before_duration
        (audioUrl : string) (c : component) (signals : list (signal * media)) :
  Recorder.truthy audioUrl = true ->
  Forall (fun s => qualifies s = false) signals ->
  togglePlayPause (deliver_all signals (load audioUrl c))
  = deliver_all signals (load audioUrl c)
  /\ isPlaying (deliver_all signals (load audioUrl c)) = false.
Proof.
  intros Hurl Hall.
  destruct (deliver_all_unqualified signals (load audioUrl c) Hall) as [Hready _].
  assert (Hoff : isReady (load audioUrl c) = false)
    by (unfold load; now rewrite Hurl).
  split.
  - unfold togglePlayPause. now rewrite Hready, Hoff.
  - assert (Hplay : forall l c0, isPlaying (deliver_all l c0) = isPlaying c0).
    { induction l as [|s l IHl]; intros c0; [reflexivity|].
      cbn [deliver_all fold_left]. fold (deliver_all l (deliver c0 s)).
      rewrite IHl. destruct s as [[ | | | ] audio]; cbn [deliver];
        unfold handleLoadedMetadata, handleLoadedData, handleCanPlay, handleTimeUpdate;
        match goal with |- context [if ?b then _ else _] => destruct b end;
        reflexivity. }
    rewrite Hplay. unfold load. now rewrite Hurl.
Qed.

Lemma no_play_before_duration_witness :
  let signals := [(MetadataReady, reports PrimFloat.infinity 0);
                  (CanStart, reports PrimFloat.nan 0)]%float in
  togglePlayPause (deliver_all signals (load "blob:recording" mount))
  = deliver_all signals (load "blob:recording" mount)
  /\ isPlaying (deliver_all signals (load "blob:recording" mount)) = false.
Proof.
  apply (no_play_before_duration "blob:recording" mount
           [(MetadataReady, reports PrimFloat.infinity 0);
            (CanStart, reports PrimFloat.nan 0)]%float).
  - reflexivity.
  - repeat constructor.
Defined.

(** X24.  Readiness taken from a position-advanced signal does not
    enable the play button: on a first load, when that signal is the one
    that brings the duration, the player is marked ready but still
    loading, and a click on play changes nothing; the next can-start
    signal, whatever its duration, enables it. *)
Theorem position_advanced_leaves_loading
        (audioUrl : string) (c : component) (audio later : media) :
  Recorder.truthy audioUrl = true ->
  isReady c = false ->
  qualifies (PositionAdvanced, audio) = true ->
  let c1 := deliver (load audioUrl c) (PositionAdvanced, audio) in
  isReady c1 = true
  /\ loading c1 = true
  /\ togglePlayPause c1 = c1
  /\ isPlaying (togglePlayPause (deliver c1 (CanStart, later))) = true.
Proof.
  intros Hurl Hoff Hq c1.
  assert (Hl : isReady_in_listeners (load audioUrl c) = false)
    by (unfold load; rewrite Hurl; exact Hoff).
  destruct (deliver_qualified (load audioUrl c) (PositionAdvanced, audio) Hl Hq)
    as [Hready _].
  fold c1 in Hready.
  assert (Hloading : loading c1 = true).
  { unfold c1. cbn [deliver]. unfold handleTimeUpdate.
    match goal with |- context [if ?b then _ else _] => destruct b end;
      unfold load; rewrite Hurl; reflexivity. }
  assert (Hpaused : isPlaying c1 = false).
  { unfold c1. cbn [deliver]. unfold handleTimeUpdate.
    match goal with |- context [if ?b then _ else _] => destruct b end;
      unfold load; rewrite Hurl; reflexivity. }
  split; [exact Hready|]. split; [exact Hloading|]. split.
  - unfold togglePlayPause. now rewrite Hready, Hloading.
  - pose proof (deliver_keeps_ready c1 (CanStart, later) Hready) as Hready'.
    assert (Hrest : loading (deliver c1 (CanStart, later)) = false
                    /\ isPlaying (deliver c1 (CanStart, later)) = isPlaying c1).
    { cbn [deliver]. unfold handleCanPlay.
      match goal with |- context [if ?b then _ else _] => destruct b end;
        now split. }
    destruct Hrest as [Hloaded Hsame].
    unfold togglePlayPause. rewrite Hready', Hloaded.
    cbn [negb orb isPlaying setIsPlaying]. now rewrite Hsame, Hpaused.
Qed.

Lemma position_advanced_leaves_loading_witness :
  let c1 := deliver (load "blob:recording" mount)
                    (PositionAdvanced, reports 3 0x1p-2)%float in
  isReady c1 = true
  /\ loading c1 = true
  /\ togglePlayPause c1 = c1
  /\ isPlaying
       (togglePlayPause (deliver c1 (CanStart, reports PrimFloat.infinity 0x1p-2)%float))
     = true.
Proof.
  apply (position_advanced_leaves_loading "blob:recording" mount
           (reports 3 0x1p-2)%float (reports PrimFloat.infinity 0x1p-2)%float);
    reflexivity.
Defined.

End PlayerFacts.

(* ================================================================== *)
(** * Properties of the page *)
(* ================================================================== *)

Module PageFacts.

Import Transcribe Page.

Local Open Scope string_scope.

Section Server.

Variable Segment : Type.
Variable transcribe : Request -> completion (Transcription Segment).
Variable toLowerCase : string -> string.
Variable createObjectURL : Recorder.Blob -> string.

Local Abbreviation handleFileSelected :=
  (Page.handleFileSelected transcribe toLowerCase).
Local Abbreviation handleUseTestAudio :=
  (Page.handleUseTestAudio transcribe toLowerCase).
Local Abbreviation handleRecordingComplete :=
  (Page.handleRecordingComplete transcribe toLowerCase createObjectURL).

Lemma extensionOf_cases (blobType : string) :
  extensionOf blobType = "webm" \/ extensionOf blobType = "mp3"
  \/ extensionOf blobType = "wav".
Proof.
  unfold extensionOf.
  destruct (includes blobType "webm"); [now left|].
  destruct (includes blobType "mp3"); [now right; left|].
  destruct (includes blobType "wav"); [now right; right | now right; left].
Qed.

(** X25.  What the page submits for a recording, whatever its type: a
    file named recording.webm, recording.mp3 or recording.wav, which the
    action hands to the provider first, as a buffer of the recorded bytes
    named audio.webm, audio.mp3 or audio.wav accordingly (given a
    [toLowerCase] that leaves these three words alone). *)
Theorem recording_request (blob : Recorder.Blob) :
  toLowerCase "webm" = "webm" ->
  toLowerCase "mp3" = "mp3" ->
  toLowerCase "wav" = "wav" ->
  let extension := extensionOf (Recorder.blob_type blob) in
  In extension ["webm"; "mp3"; "wav"]
  /\ hd_error
       (snd (transcribeAudio transcribe toLowerCase
               {| audio := Some (fileOf blob); useTestAudio := None |} []))
     = Some {| req_audio := FromBuffer (Recorder.blob_data blob) ("audio." ++ extension);
               req_language := "en";
               req_fileName := "recording." ++ extension |}.
Proof.
  intros Hwebm Hmp3 Hwav extension.
  assert (Hext : fileExtension toLowerCase (fileOf blob) = extension).
  { unfold fileExtension, fileOf. cbn [name type]. fold extension.
    destruct (extensionOf_cases (Recorder.blob_type blob)) as [E|[E|E]];
      fold extension in E; rewrite E; cbn; assumption. }
  split.
  - destruct (extensionOf_cases (Recorder.blob_type blob)) as [E|[E|E]];
      fold extension in E; rewrite E; cbn; auto.
  - unfold transcribeAudio, try_catch, bind, call, name_of, ret.
    cbn [audio useTestAudio app].
    unfold file_request at 1 2 3. rewrite Hext.
    destruct (transcribe _) as [r|e]; [reflexivity|].
    now destruct (transcribe _).
Qed.

Lemma settle_keeps (outcome : completion (Response Segment)) (failed : string)
      (s : state) :
  audioBlob (settle outcome failed s) = audioBlob s
  /\ audioUrl (settle outcome failed s) = audioUrl s.
Proof. unfold settle. destruct outcome as [[r|m]|m]; now split. Qed.

(** X26.  Once a file has been handled, processing is over and the page
    holds either a transcript and no error or an error and no transcript,
    whatever it held before; the player's source and the saved blob are
    not touched. *)
Theorem file_handled (file : File) (s : state) :
  let s' := handleFileSelected file s in
  isProcessing s' = false
  /\ audioUrl s' = audioUrl s
  /\ audioBlob s' = audioBlob s
  /\ ((exists transcript, transcription s' = Some transcript /\ error s' = None)
      \/ (exists message, error s' = Some message /\ transcription s' = None)).
Proof.
  cbn zeta. unfold Page.handleFileSelected, settle.
  destruct (fst (transcribeAudio transcribe toLowerCase _ [])) as [[result|message]|message];
    cbn; repeat split; eauto.
Qed.

(** X27.  The download link names the recording as it was submitted,
    except a recording submitted as recording.wav, which is offered as
    recording.mp3. *)
Theorem download_name (blob : Recorder.Blob) (s : state) :
  downloadName (handleRecordingComplete blob s)
  = if String.eqb (extensionOf (Recorder.blob_type blob)) "wav"
    then "recording.mp3"
    else name (fileOf blob).
Proof.
  unfold Page.handleRecordingComplete, Page.handleFileSelected, downloadName.
  rewrite (proj1 (settle_keeps _ _ _)). cbn [audioBlob setError setIsProcessing
                                              setAudioUrl setAudioBlob].
  unfold fileOf, extensionOf. cbn [name].
  destruct (includes (Recorder.blob_type blob) "webm"); [reflexivity|].
  destruct (includes (Recorder.blob_type blob) "mp3"); [reflexivity|].
  destruct (includes (Recorder.blob_type blob) "wav"); reflexivity.
Qed.

End Server.

Lemma recording_request_witness :
  let blob := {| Recorder.blob_data := [x1a; x45; xdf; xa3];
                 Recorder.blob_type := "audio/ogg;codecs=opus" |} in
  let extension := extensionOf (Recorder.blob_type blob) in
  In extension ["webm"; "mp3"; "wav"]
  /\ hd_error
       (snd (transcribeAudio accepting (fun s => s)
               {| audio := Some (fileOf blob); useTestAudio := None |} []))
     = Some {| req_audio := FromBuffer (Recorder.blob_data blob) ("audio." ++ extension);
               req_language := "en";
               req_fileName := "recording." ++ extension |}.
Proof.
  apply (recording_request unit accepting (fun s => s)
           {| Recorder.blob_data := [x1a; x45; xdf; xa3];
              Recorder.blob_type := "audio/ogg;codecs=opus" |});
    reflexivity.
Defined.

End PageFacts.
